(** * Lucky Draw & Grouping: a model of [src/App.tsx]

    The React component [App] keeps the participant list, the draw history and
    the groups in [useState] cells and changes them from event handlers, one
    [setInterval] callback and one parser callback.  A handler is a closure of
    the render that made it: it reads the state that render saw and writes,
    through the setters, the state the component has when it runs.  The two
    differ while a tab panel animates out under [<AnimatePresence mode="wait">]:
    the leaving panel stays mounted with the elements of its last render.  What
    the handlers take from the JavaScript engine ([Math.random],
    [Array.prototype.sort], number formatting) is the interface [Engine]. *)

From stdpp Require Import base list gmap sets.
From Stdlib Require Import ZArith Lia.
From Stdlib Require DecimalNat.

Set Default Proof Using "Type".
#[local] Set Warnings "-clear-no-such-hyp".
Open Scope Z_scope.
Open Scope nat_scope.

(** ** Strings

    A JavaScript string is a sequence of UTF-16 code units. *)

Abbreviation jsstring := (list N).

(** The code units [String.prototype.trim] strips: WhiteSpace and
    LineTerminator of ECMAScript. *)
Definition isWhiteSpace (c : N) : bool :=
  ((9 <=? c) && (c <=? 13) || (c =? 32) || (c =? 160) || (c =? 5760)
   || (8192 <=? c) && (c <=? 8202) || (c =? 8232) || (c =? 8233)
   || (c =? 8239) || (c =? 8287) || (c =? 12288) || (c =? 65279))%N.

Fixpoint trimStart (s : jsstring) : jsstring :=
  match s with
  | c :: s' => if isWhiteSpace c then trimStart s' else s
  | [] => []
  end.

Definition trimEnd (s : jsstring) : jsstring := reverse (trimStart (reverse s)).

Definition trim (s : jsstring) : jsstring := trimEnd (trimStart s).

(** [s.split(sep)] for a one-unit separator: never empty, [''.split] is [['']]. *)
Fixpoint split (sep : N) (s : jsstring) : list jsstring :=
  match s with
  | [] => [[]]
  | c :: s' =>
      if (c =? sep)%N then [] :: split sep s'
      else match split sep s' with
           | w :: ws => (c :: w) :: ws
           | [] => [[c]]
           end
  end.

Definition LF : N := 10.

Definition nonEmpty (n : jsstring) : bool :=
  match n with [] => false | _ => true end.

(** [text.split('\n').map(n => n.trim()).filter(n => n !== '')] *)
Definition namesOfText (text : jsstring) : list jsstring :=
  filter (λ n, nonEmpty n = true) (trim <$> split LF text).

(** [results.data.flat().map(n => String(n).trim()).filter(n => n !== '')];
    without [header] and [dynamicTyping] every cell is a string already. *)
Definition namesOfRows (data : list (list jsstring)) : list jsstring :=
  filter (λ n, nonEmpty n = true) (trim <$> concat data).

(** ** Participants *)

Record Participant := mkParticipant { id : jsstring; name : jsstring }.

#[global] Instance Participant_eq_dec : EqDecision Participant.
Proof. solve_decision. Defined.

(** ['source' | 'draw' | 'group'] *)
Inductive Tab := tab_source | tab_draw | tab_group.

#[global] Instance Tab_eq_dec : EqDecision Tab.
Proof. solve_decision. Defined.

(** ** The engine

    [rnd] is the type of the values [Math.random()] returns.  The three
    observations are the expressions the source applies to such a value.
    [array_sort] is [Array.prototype.sort] for a comparator whose answers may
    change from call to call: [cmp k a b] is what the comparator answers when
    its [k]-th call (from 0) is on [a] and [b]; the result is the sorted
    array with the number of calls made. *)
Class Engine := {
  rnd : Type;
  (** [u.toString(36).substr(2, 9)] *)
  toString36_substr : rnd → jsstring;
  (** [Math.floor(u * n)] *)
  floor_times : rnd → nat → nat;
  (** the sign of [u - 0.5]: [Lt] negative, [Eq] zero, [Gt] positive *)
  minus_half : rnd → comparison;
  array_sort : ∀ (A : Type), (nat → A → A → comparison) → list A → list A * nat;
}.

Arguments array_sort {_ A} _ _.

(** [Math.floor(Math.random() * n)] is an index below [n]. *)
Definition random_index_in_range (E : Engine) : Prop :=
  ∀ (u : rnd) (n : nat), 0 < n → floor_times u n < n.

(** [sort] rearranges the array it is given, whatever the comparator answers. *)
Definition sort_permutes (E : Engine) : Prop :=
  ∀ (A : Type) (cmp : nat → A → A → comparison) (l : list A),
    fst (array_sort cmp l) ≡ₚ l.

(** ** Component state: the [useState] cells of [App] *)

Record AppState := mkApp {
  activeTab : Tab;
  participants : list Participant;
  inputText : jsstring;
  autoDeduplicate : bool;
  drawHistory : list Participant;
  isDrawing : bool;
  currentWinner : option Participant;
  allowRepeat : bool;
  groupSize : Z;
  groups : list (list Participant);
}.

Definition initialState : AppState :=
  {| activeTab := tab_source; participants := []; inputText := [];
     autoDeduplicate := true; drawHistory := []; isDrawing := false;
     currentWinner := None; allowRepeat := false; groupSize := 3%Z;
     groups := [] |}.

Definition setActiveTab (v : Tab) (st : AppState) : AppState :=
  mkApp v (participants st) (inputText st) (autoDeduplicate st) (drawHistory st)
        (isDrawing st) (currentWinner st) (allowRepeat st) (groupSize st) (groups st).
Definition setParticipants (f : list Participant → list Participant) (st : AppState) : AppState :=
  mkApp (activeTab st) (f (participants st)) (inputText st) (autoDeduplicate st) (drawHistory st)
        (isDrawing st) (currentWinner st) (allowRepeat st) (groupSize st) (groups st).
Definition setInputText (v : jsstring) (st : AppState) : AppState :=
  mkApp (activeTab st) (participants st) v (autoDeduplicate st) (drawHistory st)
        (isDrawing st) (currentWinner st) (allowRepeat st) (groupSize st) (groups st).
Definition setAutoDeduplicate (v : bool) (st : AppState) : AppState :=
  mkApp (activeTab st) (participants st) (inputText st) v (drawHistory st)
        (isDrawing st) (currentWinner st) (allowRepeat st) (groupSize st) (groups st).
Definition setDrawHistory (f : list Participant → list Participant) (st : AppState) : AppState :=
  mkApp (activeTab st) (participants st) (inputText st) (autoDeduplicate st) (f (drawHistory st))
        (isDrawing st) (currentWinner st) (allowRepeat st) (groupSize st) (groups st).
Definition setIsDrawing (v : bool) (st : AppState) : AppState :=
  mkApp (activeTab st) (participants st) (inputText st) (autoDeduplicate st) (drawHistory st)
        v (currentWinner st) (allowRepeat st) (groupSize st) (groups st).
Definition setCurrentWinner (v : option Participant) (st : AppState) : AppState :=
  mkApp (activeTab st) (participants st) (inputText st) (autoDeduplicate st) (drawHistory st)
        (isDrawing st) v (allowRepeat st) (groupSize st) (groups st).
Definition setAllowRepeat (v : bool) (st : AppState) : AppState :=
  mkApp (activeTab st) (participants st) (inputText st) (autoDeduplicate st) (drawHistory st)
        (isDrawing st) (currentWinner st) v (groupSize st) (groups st).
Definition setGroupSize (v : Z) (st : AppState) : AppState :=
  mkApp (activeTab st) (participants st) (inputText st) (autoDeduplicate st) (drawHistory st)
        (isDrawing st) (currentWinner st) (allowRepeat st) v (groups st).
Definition setGroups (v : list (list Participant)) (st : AppState) : AppState :=
  mkApp (activeTab st) (participants st) (inputText st) (autoDeduplicate st) (drawHistory st)
        (isDrawing st) (currentWinner st) (allowRepeat st) (groupSize st) v.

(** ** Derived state *)

(** [drawHistory.find(h => h.id === p.id)] is truthy *)
Definition inHistory (h : list Participant) (p : Participant) : bool :=
  bool_decide (id p ∈ id <$> h).

Definition availableParticipants (st : AppState) : list Participant :=
  if allowRepeat st then participants st
  else filter (λ p, inHistory (drawHistory st) p = false) (participants st).

(** ** The store's filters *)

(** The [filter] callback of [handleAddFromText] and of the upload callback:
    it consults and extends the set [existingNames] as it goes. *)
Fixpoint filterNew (existingNames : gset jsstring) (ps : list Participant) : list Participant :=
  match ps with
  | [] => []
  | p :: ps' =>
      if decide (name p ∈ existingNames) then filterNew existingNames ps'
      else p :: filterNew ({[name p]} ∪ existingNames) ps'
  end.

(** The [filter] callback of [deduplicate]: [seen.add] runs for every entry. *)
Fixpoint filterUnique (seen : gset jsstring) (ps : list Participant) : list Participant :=
  match ps with
  | [] => []
  | p :: ps' =>
      let duplicate := bool_decide (name p ∈ seen) in
      let seen' := {[name p]} ∪ seen in
      if negb duplicate then p :: filterUnique seen' ps' else filterUnique seen' ps'
  end.

(** [new Set(participants.map(p => p.name))] *)
Definition nameSet (ps : list Participant) : gset jsstring := list_to_set (name <$> ps).

(** ** Grouping: [slice] and the chunking loop *)

(** [arr.slice(start, end)], with the relative indices of ECMAScript. *)
Definition slice {A} (arr : list A) (start end_ : Z) : list A :=
  let len := Z.of_nat (length arr) in
  let k := if (start <? 0)%Z then Z.max (len + start) 0 else Z.min start len in
  let final := if (end_ <? 0)%Z then Z.max (len + end_) 0 else Z.min end_ len in
  take (Z.to_nat (final - k)) (drop (Z.to_nat k) arr).

(** [for (let i = 0; i < shuffled.length; i += groupSize)
       newGroups.push(shuffled.slice(i, i + groupSize))],
    entered at [i] with [newGroups]; [None] when [fuel] iterations do not
    reach the exit test. *)
Fixpoint chunkLoop {A} (fuel : nat) (shuffled : list A) (groupSize : Z) (i : Z)
    (newGroups : list (list A)) : option (list (list A)) :=
  match fuel with
  | O => None
  | S fuel' =>
      if (i <? Z.of_nat (length shuffled))%Z
      then chunkLoop fuel' shuffled groupSize (i + groupSize)%Z
             (newGroups ++ [slice shuffled i (i + groupSize)%Z])
      else Some newGroups
  end.

(** ** Timers and pending uploads *)

(** A running [setInterval] callback of [startDraw]: the
    [availableParticipants] its closure captured and its [counter]. *)
Record Timer := mkTimer { t_available : list Participant; t_counter : nat }.

(** A [Papa.parse] in flight: [complete] closes over the [participants] and
    [autoDeduplicate] of the render that handled the file input's event. *)
Record Upload := mkUpload { u_participants : list Participant; u_autoDeduplicate : bool }.

(** The component with what surrounds it: timers by handle (a cleared timer
    leaves [None]), pending parses, how many [Math.random()] calls were made
    so far, and the tab panel that is animating out, if one is.  The panels
    are the keyed children of [<AnimatePresence mode="wait">]: when
    [activeTab] changes, the panel of the old tab stays mounted, as the
    element its last render made, until its [exit] animation ends, and only
    then the panel of the new tab is mounted.  [exiting] is the key of that
    panel with the state its last render saw. *)
Record World := mkWorld {
  appState : AppState;
  timers : list (option Timer);
  uploads : list (option Upload);
  cursor : nat;
  exiting : option (Tab * AppState);
}.

Definition initialWorld : World :=
  {| appState := initialState; timers := []; uploads := []; cursor := 0;
     exiting := None |}.

Definition withApp (f : AppState → AppState) (w : World) : World :=
  mkWorld (f (appState w)) (timers w) (uploads w) (cursor w) (exiting w).

(** The tab panel on the page, with the state its elements were rendered
    from: the leaving panel while one animates out, else the panel of
    [activeTab] as the current state renders it. *)
Definition shown (w : World) : Tab * AppState :=
  match exiting w with
  | Some leaving => leaving
  | None => (activeTab (appState w), appState w)
  end.

Definition duration : nat := 2000.
Definition interval : nat := 50.
Definition steps : nat := duration / interval.

(** ** Handlers

    Where a handler takes [render], that is the state seen by the render
    whose closure the handler is: the handler's free variables
    ([participants], [inputText], [availableParticipants], ...) are read
    there, and its setter calls act on the state of the world it runs in. *)
Section Handlers.
Context {E : Engine}.
(** The stream of values [Math.random()] returns, call by call. *)
Variable random : nat → rnd.

(** [names.map(name => ({ id: Math.random().toString(36).substr(2, 9), name }))]
    from call number [pos] on; returns the next call number too. *)
Fixpoint newParticipantsFrom (names : list jsstring) (pos : nat) : list Participant * nat :=
  match names with
  | [] => ([], pos)
  | n :: names' =>
      let p := {| id := toString36_substr (random pos); name := n |} in
      let '(ps, pos') := newParticipantsFrom names' (S pos) in
      (p :: ps, pos')
  end.

(** The body shared by [handleAddFromText] and the upload's [complete]:
    [closure] is the [participants] the handler closed over. *)
Definition addNames (names : list jsstring) (dedupe : bool)
    (closure : list Participant) (w : World) : World :=
  let fresh := newParticipantsFrom names (cursor w) in
  let newParticipants :=
    if dedupe then filterNew (nameSet closure) (fst fresh) else fst fresh in
  mkWorld (setParticipants (λ prev, prev ++ newParticipants) (appState w))
          (timers w) (uploads w) (snd fresh) (exiting w).

(** [handleAddFromText]: [inputText], [autoDeduplicate] and the
    [participants] behind [existingNames] are the render's; the list appended
    to is the one [setParticipants] finds. *)
Definition handleAddFromText (render : AppState) (w : World) : World :=
  let names := namesOfText (inputText render) in
  withApp (setInputText [])
    (addNames names (autoDeduplicate render) (participants render) w).

(** [handleFileUpload] with a file chosen: the parse is started. *)
Definition handleFileUpload (render : AppState) (w : World) : World :=
  mkWorld (appState w) (timers w)
    (uploads w ++ [Some (mkUpload (participants render) (autoDeduplicate render))])
    (cursor w) (exiting w).

(** [complete(results)] of upload [k]; it runs once. *)
Definition uploadComplete (k : nat) (data : list (list jsstring)) (w : World) : World :=
  match uploads w !! k with
  | Some (Some u) =>
      let w1 := mkWorld (appState w) (timers w) (<[k := None]> (uploads w)) (cursor w)
                        (exiting w) in
      addNames (namesOfRows data) (u_autoDeduplicate u) (u_participants u) w1
  | _ => w
  end.

(** [deduplicate]: the list filtered is the render's, and the result is
    stored as it is ([setParticipants(unique)], no updater function). *)
Definition deduplicate (render st : AppState) : AppState :=
  let unique := filterUnique ∅ (participants render) in
  setParticipants (λ _, unique) st.

Definition clearParticipants (st : AppState) : AppState :=
  setGroups [] (setDrawHistory (λ _, []) (setParticipants (λ _, []) st)).

(** The row's delete button: [setParticipants(prev => prev.filter(item => item.id !== p.id))] *)
Definition removeParticipant (pid : jsstring) (st : AppState) : AppState :=
  setParticipants (λ prev, filter (λ item, id item ≠ pid) prev) st.

(** The history panel's Clear button: [setDrawHistory([])] *)
Definition clearHistory (st : AppState) : AppState := setDrawHistory (λ _, []) st.

(** [startDraw]: the guard is on the eligible list only, and that list is
    the render's [availableParticipants]. *)
Definition startDraw (render : AppState) (w : World) : World :=
  let available := availableParticipants render in
  if length available =? 0 then w
  else
    mkWorld (setCurrentWinner None (setIsDrawing true (appState w)))
            (timers w ++ [Some (mkTimer available 0)])
            (uploads w) (cursor w) (exiting w).

(** One run of the interval callback of timer [k].  [None]: the committed
    winner would be [undefined] (an index past the end of the list). *)
Definition timerCallback (k : nat) (w : World) : option World :=
  match timers w !! k with
  | Some (Some t) =>
      let available := t_available t in
      let randomIndex := floor_times (random (cursor w)) (length available) in
      let st1 := setCurrentWinner (available !! randomIndex) (appState w) in
      let counter := S (t_counter t) in
      if steps <=? counter then
        match available !! floor_times (random (S (cursor w))) (length available) with
        | Some finalWinner =>
            Some (mkWorld
                    (setIsDrawing false
                       (setDrawHistory (λ prev, finalWinner :: prev)
                          (setCurrentWinner (Some finalWinner) st1)))
                    (<[k := None]> (timers w)) (uploads w) (S (S (cursor w)))
                    (exiting w))
        | None => None
        end
      else
        Some (mkWorld st1 (<[k := Some (mkTimer available counter)]> (timers w))
                      (uploads w) (S (cursor w)) (exiting w))
  | _ => Some w
  end.

(** [[...participants].sort(() => Math.random() - 0.5)] from call number
    [pos] on: the comparator ignores its arguments and draws; returns the
    next call number too. *)
Definition shuffle (ps : list Participant) (pos : nat) : list Participant * nat :=
  let sorted := array_sort (λ k _ _, minus_half (random (pos + k))) ps in
  (fst sorted, pos + snd sorted).

(** [handleGrouping], on the render's [participants] and [groupSize];
    [None] when the loop does not end within [fuel]. *)
Definition handleGrouping (fuel : nat) (render : AppState) (w : World) : option World :=
  if length (participants render) =? 0 then Some w
  else
    let shuffled := shuffle (participants render) (cursor w) in
    match chunkLoop fuel (fst shuffled) (groupSize render) 0 [] with
    | Some newGroups =>
        Some (mkWorld (setGroups newGroups (appState w)) (timers w) (uploads w)
                      (snd shuffled) (exiting w))
    | None => None
    end.

(** The group size input: [setGroupSize(parseInt(e.target.value) || 1)];
    [parsed] is what [parseInt] returned, [None] for [NaN]. *)
Definition changeGroupSize (parsed : option Z) (st : AppState) : AppState :=
  setGroupSize (match parsed with
                | Some z => if (z =? 0)%Z then 1%Z else z
                | None => 1%Z
                end) st.

(** A tab button of the header: [setActiveTab(tab.id)].  The header is not
    under [AnimatePresence].  When the tab changes, the panel on the page
    starts to leave, as the current state rendered it; while a panel is
    leaving it goes on leaving, unless its own tab is selected again, which
    puts it back as a panel of the current state. *)
Definition selectTab (t : Tab) (w : World) : World :=
  let st := appState w in
  mkWorld (setActiveTab t st) (timers w) (uploads w) (cursor w)
    match exiting w with
    | Some (key, frozen) => if decide (t = key) then None else Some (key, frozen)
    | None => if decide (t = activeTab st) then None else Some (activeTab st, st)
    end.

(** The [exit] animation of the leaving panel ends: the panel is unmounted
    and the panel of [activeTab] is mounted. *)
Definition exitComplete (w : World) : World :=
  mkWorld (appState w) (timers w) (uploads w) (cursor w) None.
End Handlers.

(** ** Events

    What can happen to the mounted component: a user event on an element of
    the panel on the page reaches the handler that panel's render gave the
    element, unless the render made the element [disabled]; a tab button of
    the header is clicked; a timer or a parse calls back; an [exit]
    animation ends.  The export button reads [groups] and changes no state;
    it has no event here. *)
Inductive Event :=
| SelectTab (t : Tab)
| TypeText (text : jsstring)
| ClickAdd
| ChooseFile
| ParseComplete (k : nat) (data : list (list jsstring))
| ToggleAutoDeduplicate
| ClickDeduplicate
| ClickClearAll
| ClickRemove (pid : jsstring)
| ClickDraw
| TimerFires (k : nat)
| ToggleAllowRepeat
| ClickClearHistory
| ChangeGroupSize (parsed : option Z)
| ClickGenerate
| ExitComplete.

(** The tab panel that holds the element of a user event; [None] for the
    header's tab buttons and for callbacks. *)
Definition panelOf (e : Event) : option Tab :=
  match e with
  | TypeText _ | ClickAdd | ChooseFile | ToggleAutoDeduplicate
  | ClickDeduplicate | ClickClearAll | ClickRemove _ => Some tab_source
  | ClickDraw | ToggleAllowRepeat | ClickClearHistory => Some tab_draw
  | ChangeGroupSize _ | ClickGenerate => Some tab_group
  | SelectTab _ | ParseComplete _ _ | TimerFires _ | ExitComplete => None
  end.

Section Machine.
Context {E : Engine}.
Variable random : nat → rnd.

(** The [disabled] attributes of the four guarded buttons. *)
Definition listButtonsDisabled (st : AppState) : bool := length (participants st) =? 0.
Definition drawDisabled (st : AppState) : bool :=
  isDrawing st || (length (availableParticipants st) =? 0).

(** What the event does when the element it is on was rendered from
    [render]: the [disabled] attribute and the handler are that render's.
    A row's delete button exists for the entries that render listed.
    [ClickGenerate] runs the loop with as many iterations as any terminating
    run needs (see [chunkLoop_fuel]); [None] is a handler that does not
    complete.  The header's buttons and the callbacks take nothing from
    [render]. *)
Definition handle (e : Event) (render : AppState) (w : World) : option World :=
  match e with
  | SelectTab t => Some (selectTab t w)
  | TypeText text => Some (withApp (setInputText text) w)
  | ClickAdd => Some (handleAddFromText random render w)
  | ChooseFile => Some (handleFileUpload render w)
  | ParseComplete k data => Some (uploadComplete random k data w)
  | ToggleAutoDeduplicate =>
      Some (withApp (setAutoDeduplicate (negb (autoDeduplicate render))) w)
  | ClickDeduplicate =>
      Some (if listButtonsDisabled render then w else withApp (deduplicate render) w)
  | ClickClearAll =>
      Some (if listButtonsDisabled render then w else withApp clearParticipants w)
  | ClickRemove pid =>
      Some (if decide (pid ∈ id <$> participants render)
            then withApp (removeParticipant pid) w else w)
  | ClickDraw => Some (if drawDisabled render then w else startDraw render w)
  | TimerFires k => timerCallback random k w
  | ToggleAllowRepeat => Some (withApp (setAllowRepeat (negb (allowRepeat render))) w)
  | ClickClearHistory => Some (withApp clearHistory w)
  | ChangeGroupSize parsed => Some (withApp (changeGroupSize parsed) w)
  | ClickGenerate =>
      if listButtonsDisabled render then Some w
      else handleGrouping random (S (length (participants render))) render w
  | ExitComplete => Some (exitComplete w)
  end.

(** One event.  An event on an element of a tab panel happens only while
    that panel is the one on the page, and is handled as that panel was
    rendered: from the current state, or, while the panel animates out, from
    the state of its last render. *)
Definition dispatch (e : Event) (w : World) : option World :=
  match panelOf e with
  | Some tab =>
      if decide (fst (shown w) = tab) then handle e (snd (shown w)) w else Some w
  | None => handle e (appState w) w
  end.

Fixpoint run (evs : list Event) (w : World) : option World :=
  match evs with
  | [] => Some w
  | e :: evs' =>
      match dispatch e w with
      | Some w' => run evs' w'
      | None => None
      end
  end.

(** Timers that are still running. *)
Definition activeTimers (w : World) : nat :=
  length (filter (λ t : option Timer, is_Some t) (timers w)).

(** In the run of [evs] from [w], no element of a tab panel is used while
    the panel animates out. *)
Fixpoint settledRun (evs : list Event) (w : World) : bool :=
  match evs with
  | [] => true
  | e :: evs' =>
      match panelOf e, exiting w with
      | Some _, Some _ => false
      | _, _ =>
          match dispatch e w with
          | Some w' => settledRun evs' w'
          | None => true
          end
      end
  end.
End Machine.

(** ** Counting outcomes of the shuffle

    The random source seen as a finite experiment: [k] calls of
    [Math.random()], each returning one of the equally likely values [Ω]. *)

(** All sequences of [k] values of [Ω]. *)
Fixpoint sequences {A} (Ω : list A) (k : nat) : list (list A) :=
  match k with
  | O => [[]]
  | S k' => x ← Ω; (x ::.) <$> sequences Ω k'
  end.

(** The stream that starts with [s] and goes on with [u0]. *)
Definition streamOf {A} (u0 : A) (s : list A) : nat → A := λ i, nth i s u0.

(** How many of the [k]-call experiments make [shuffle] return [order]. *)
Definition outcomeCount {E : Engine} (Ω : list rnd) (u0 : rnd) (k : nat)
    (ps order : list Participant) : nat :=
  length (filter (λ s, fst (shuffle (streamOf u0 s) ps 0) = order) (sequences Ω k)).

(** ** A reference engine

    One engine the interface admits, used to run the model on concrete
    inputs: [Math.random()] returns [n / 2^53] for a 53-bit [n], the
    arithmetic on it is exact, and [sort] is an insertion sort. *)
Module Reference.

Definition two53 : N := 2 ^ 53.

(** The digit characters [0-9a-z] of [toString(36)]. *)
Definition digitChar (d : N) : N := (if d <? 10 then 48 + d else 87 + d)%N.

(** The base-36 digits of the fraction [num / 2^53], until it is exhausted. *)
Fixpoint fractionDigits (fuel : nat) (num : N) : jsstring :=
  match fuel with
  | O => []
  | S fuel' =>
      if (num =? 0)%N then []
      else digitChar (num * 36 / two53) :: fractionDigits fuel' ((num * 36) mod two53)
  end.

Definition ref_toString36_substr (n : N) : jsstring :=
  take 9 (fractionDigits 27 (n mod two53)).

Definition ref_floor_times (n : N) (len : nat) : nat :=
  N.to_nat ((n mod two53) * N.of_nat len / two53).

Definition ref_minus_half (n : N) : comparison := (2 * (n mod two53) ?= two53)%N.

(** Insertion of [x] into [l], the comparator having been called [n] times. *)
Fixpoint insertInto {A} (cmp : nat → A → A → comparison) (x : A) (l : list A) (n : nat)
    : list A * nat :=
  match l with
  | [] => ([x], n)
  | y :: l' =>
      match cmp n x y with
      | Lt => (x :: y :: l', S n)
      | _ => let r := insertInto cmp x l' (S n) in (y :: fst r, snd r)
      end
  end.

Fixpoint insertionSort {A} (cmp : nat → A → A → comparison) (l : list A) : list A * nat :=
  match l with
  | [] => ([], 0)
  | x :: l' => let r := insertionSort cmp l' in insertInto cmp x (fst r) (snd r)
  end.

Definition engine : Engine :=
  {| rnd := N;
     toString36_substr := ref_toString36_substr;
     floor_times := ref_floor_times;
     minus_half := ref_minus_half;
     array_sort := @insertionSort |}.

(** Sample participants and texts. *)
Definition alice : jsstring := [65; 108; 105; 99; 101]%N.
Definition bob : jsstring := [66; 111; 98]%N.
Definition carol : jsstring := [67; 97; 114; 111; 108]%N.
Definition pA : Participant := {| id := [49]%N; name := alice |}.
Definition pB : Participant := {| id := [50]%N; name := bob |}.
Definition pC : Participant := {| id := [51]%N; name := carol |}.
Definition pD : Participant := {| id := [52]%N; name := [68]%N |}.
Definition pE : Participant := {| id := [53]%N; name := [69]%N |}.

(** A second entry named Alice. *)
Definition pA' : Participant := {| id := [54]%N; name := alice |}.

(** The initial world with a participant list and a group size put in. *)
Definition worldOf (ps : list Participant) (size : Z) : World :=
  withApp (λ st, setGroupSize size (setParticipants (λ _, ps) st)) initialWorld.

(** ["Alice\n Bob \n\nAlice"] *)
Definition sampleText : jsstring := alice ++ [10; 32]%N ++ bob ++ [32; 10; 10]%N ++ alice.

(** ["Alice\nBob"] *)
Definition twoLines : jsstring := alice ++ [10]%N ++ bob.

(** The value 0.5 of [Math.random()]. *)
Definition half : N := 2 ^ 52.

(** A source that returns 0.5 on every call, and one that counts up from 0.5
    in steps of [2^-53]. *)
Definition constantRandom : nat → N := λ _, half.
Definition countingRandom : nat → N := λ i, (half + N.of_nat i)%N.

(** A source whose first values are far apart: [(i + 1) / 32]. *)
Definition spreadRandom : nat → N := λ i, (N.of_nat (S i) * 2 ^ 48)%N.

(** A text import, a file import that completes after a second text import
    without deduplication, a manual deduplication and a removal. *)
Definition importEvents : list Event :=
  [TypeText sampleText; ClickAdd; ChooseFile; TypeText twoLines;
   ToggleAutoDeduplicate; ClickAdd; ParseComplete 0 [[carol; bob]; [alice]];
   ClickDeduplicate; ClickRemove [50; 57]%N].

(** Alice added and the draw tab opened; then the grouping tab is selected,
    so the draw panel is leaving, rendered when no draw was in progress. *)
Definition leavingDrawEvents : list Event :=
  [TypeText alice; ClickAdd; SelectTab tab_draw; ExitComplete; SelectTab tab_group].

(** Alice typed; then the draw tab is selected, so the participants panel is
    leaving, rendered with the text in the box and an empty list. *)
Definition leavingSourceEvents : list Event := [TypeText alice; SelectTab tab_draw].

End Reference.

(** ** Vocabulary of the statements *)

(** A name as the store keeps it: not empty, and nothing left to trim. *)
Definition goodName (n : jsstring) : Prop := n ≠ [] ∧ trim n = n.

(** Every group but the last one satisfies [P]. *)
Definition allButLast {A} (P : A → Prop) (l : list A) : Prop :=
  ∀ j x, l !! j = Some x → S j < length l → P x.

(** The in-progress flag says whether a reveal is running, and at most one is. *)
Definition drawInv (w : World) : Prop :=
  activeTimers w = if isDrawing (appState w) then 1 else 0.

(** The participant lists a handler can meet: the one in the state and the
    one the panel on the page was rendered from. *)
Definition storeLists (w : World) : list (list Participant) :=
  [participants (appState w); participants (snd (shown w))].

(** Every participant has a name as the store keeps it. *)
Definition namesGood (w : World) : Prop :=
  ∀ ps, ps ∈ storeLists w → Forall (λ p, goodName (name p)) ps.

#[global] Instance Event_eq_dec : EqDecision Event.
Proof. solve_decision. Defined.


(** The ids the first [n] calls of [Math.random()] would give. *)
Definition idsIssued {E : Engine} (random : nat → rnd) (n : nat) : list jsstring :=
  (λ i, toString36_substr (random i)) <$> seq 0 n.

(** The ids in a list are pairwise different and come from calls made. *)
Definition idsFresh {E : Engine} (random : nat → rnd) (w : World) : Prop :=
  ∀ ps, ps ∈ storeLists w →
    NoDup (id <$> ps)
    ∧ ∀ x, x ∈ id <$> ps → ∃ i, i < cursor w ∧ x = toString36_substr (random i).

(** ** Export

    [exportGroupsCSV] builds [csvData] from [groups] and hands it to
    [Papa.unparse] and the browser's download; [csvData] is the part that is
    the component's own. *)

(** A row of [csvData]: [{ Group: ..., Name: ... }]. *)
Record CsvRow := mkRow { Group : jsstring; Name : jsstring }.

#[global] Instance CsvRow_eq_dec : EqDecision CsvRow.
Proof. solve_decision. Defined.

(** The digits of a decimal numeral as code units. *)
Fixpoint digitsOf (d : Decimal.uint) : jsstring :=
  match d with
  | Decimal.Nil => []
  | Decimal.D0 d' => 48%N :: digitsOf d'
  | Decimal.D1 d' => 49%N :: digitsOf d'
  | Decimal.D2 d' => 50%N :: digitsOf d'
  | Decimal.D3 d' => 51%N :: digitsOf d'
  | Decimal.D4 d' => 52%N :: digitsOf d'
  | Decimal.D5 d' => 53%N :: digitsOf d'
  | Decimal.D6 d' => 54%N :: digitsOf d'
  | Decimal.D7 d' => 55%N :: digitsOf d'
  | Decimal.D8 d' => 56%N :: digitsOf d'
  | Decimal.D9 d' => 57%N :: digitsOf d'
  end.

(** How a template literal prints a non-negative integer. *)
Definition numberToString (n : nat) : jsstring := digitsOf (Nat.to_uint n).

(** [`Group ${idx + 1}`] *)
Definition groupLabel (idx : nat) : jsstring :=
  [71; 114; 111; 117; 112; 32]%N ++ numberToString (idx + 1).

(** [groups.flatMap((group, idx) =>
       group.map(p => ({ Group: `Group ${idx + 1}`, Name: p.name })))] *)
Definition csvData (groups : list (list Participant)) : list CsvRow :=
  concat (imap (λ idx group, (λ p, mkRow (groupLabel idx) (name p)) <$> group) groups).

(** ** Further vocabulary *)

(** Every code unit of a text is one [trim] strips. *)
Definition blankText (text : jsstring) : Prop := Forall (λ c, isWhiteSpace c = true) text.

(** Repeats are off, the history holds no id twice, and no running reveal
    can pick an id the history holds. *)
Definition noRepeatInv (w : World) : Prop :=
  allowRepeat (appState w) = false
  ∧ NoDup (id <$> drawHistory (appState w))
  ∧ ∀ k t p, timers w !! k = Some (Some t) → p ∈ t_available t →
             id p ∉ id <$> drawHistory (appState w).

(** Further sample worlds on the reference engine. *)
Module Samples.
Import Reference.

(** Bob in the list, a file chosen, then Alice typed and added. *)
Definition uploadPendingWorld : World :=
  default initialWorld
    (run (E := engine) spreadRandom [TypeText alice; ClickAdd]
       (handleFileUpload (appState (worldOf [pB] 3)) (worldOf [pB] 3))).

(** Three draws among three participants, each run to its 40th tick. *)
Definition threeDraws : list Event :=
  [TypeText (alice ++ [10]%N ++ bob ++ [10]%N ++ carol); ClickAdd;
   SelectTab tab_draw; ExitComplete]
  ++ (ClickDraw :: replicate 40 (TimerFires 0))
  ++ (ClickDraw :: replicate 40 (TimerFires 1))
  ++ (ClickDraw :: replicate 40 (TimerFires 2)).

(** Bob in the list, the sample text typed, auto-deduplicate switched off. *)
Definition repeatsWorld : World :=
  withApp (λ st, setAutoDeduplicate false (setInputText sampleText st)) (worldOf [pB] 3).

(** Bob in the list and a text of a space, a tab and two line breaks. *)
Definition blankWorld : World :=
  withApp (setInputText [32; 10; 9; 10]%N) (worldOf [pB] 3).

(** Alice and Bob in the list, both in the history already, the draw tab
    open. *)
Definition exhaustedWorld : World :=
  withApp (λ st, setActiveTab tab_draw (setDrawHistory (λ _, [pB; pA]) st))
    (worldOf [pA; pB] 3).

(** The group size input after typing nothing readable, 0 and -5. *)
Definition groupSizeInputs : list Event :=
  [SelectTab tab_group; ExitComplete;
   ChangeGroupSize None; ChangeGroupSize (Some 0%Z); ChangeGroupSize (Some (-5)%Z)].

End Samples.

(** * Properties *)

(** ** Names: [trim] and the two name extractors *)

Lemma trimStart_shape (s : jsstring) :
  trimStart s = [] ∨ ∃ c s', trimStart s = c :: s' ∧ isWhiteSpace c = false.
Proof.
  induction s as [|c s IH]; simpl; [by left|].
  destruct (isWhiteSpace c) eqn:Hc; [done|]. right. by exists c, s.
Qed.

Lemma trimStart_fixed (c : N) (s : jsstring) :
  isWhiteSpace c = false → trimStart (c :: s) = c :: s.
Proof. intros Hc. simpl. by rewrite Hc. Qed.

Lemma trimStart_idemp (s : jsstring) : trimStart (trimStart s) = trimStart s.
Proof.
  destruct (trimStart_shape s) as [->|(c & s' & -> & Hc)]; [done|].
  by apply trimStart_fixed.
Qed.

Lemma trimStart_snoc (s : jsstring) (c : N) :
  isWhiteSpace c = false → ∃ s', trimStart (s ++ [c]) = s' ++ [c].
Proof.
  intros Hc. induction s as [|d s IH]; simpl.
  - rewrite Hc. by exists [].
  - destruct (isWhiteSpace d); [done|]. by exists (d :: s).
Qed.

Lemma trimEnd_head (c : N) (s : jsstring) :
  isWhiteSpace c = false → ∃ s', trimEnd (c :: s) = c :: s'.
Proof.
  intros Hc. unfold trimEnd. rewrite reverse_cons.
  destruct (trimStart_snoc (reverse s) c Hc) as [s' ->].
  rewrite reverse_app. simpl. by exists (reverse s').
Qed.

Lemma trimEnd_idemp (s : jsstring) : trimEnd (trimEnd s) = trimEnd s.
Proof. unfold trimEnd. by rewrite reverse_involutive, trimStart_idemp. Qed.

Lemma trim_idemp (s : jsstring) : trim (trim s) = trim s.
Proof.
  unfold trim.
  assert (trimStart (trimEnd (trimStart s)) = trimEnd (trimStart s)) as ->.
  { destruct (trimStart_shape s) as [->|(c & s' & -> & Hc)]; [done|].
    destruct (trimEnd_head c s' Hc) as [s'' ->]. by apply trimStart_fixed. }
  apply trimEnd_idemp.
Qed.

Lemma goodName_trimmed (l : list jsstring) :
  Forall goodName (filter (λ n, nonEmpty n = true) (trim <$> l)).
Proof.
  apply Forall_forall. intros n [Hne Hin]%list_elem_of_filter.
  apply list_elem_of_fmap in Hin as (s & -> & _). split.
  - intros Heq. by rewrite Heq in Hne.
  - apply trim_idemp.
Qed.

Lemma namesOfText_good (text : jsstring) : Forall goodName (namesOfText text).
Proof. apply goodName_trimmed. Qed.

Lemma namesOfRows_good (data : list (list jsstring)) : Forall goodName (namesOfRows data).
Proof. apply goodName_trimmed. Qed.

(** ** The two stateful filters *)

Lemma filterNew_sublist (seen : gset jsstring) (ps : list Participant) :
  filterNew seen ps `sublist_of` ps.
Proof.
  revert seen. induction ps as [|p ps IH]; intros seen; simpl; [done|].
  destruct (decide (name p ∈ seen)); [by apply sublist_cons|by apply sublist_skip].
Qed.

Lemma filterNew_names (seen : gset jsstring) (ps : list Participant) (n : jsstring) :
  n ∈ name <$> filterNew seen ps ↔ n ∈ name <$> ps ∧ n ∉ seen.
Proof.
  revert seen. induction ps as [|p ps IH]; intros seen; simpl.
  - set_solver.
  - destruct (decide (name p ∈ seen)) as [Hin|Hin]; simpl;
      rewrite ?elem_of_cons, IH; [|destruct (decide (n = name p))]; set_solver.
Qed.

Lemma filterNew_NoDup (seen : gset jsstring) (ps : list Participant) :
  NoDup (name <$> filterNew seen ps).
Proof.
  revert seen. induction ps as [|p ps IH]; intros seen; simpl; [constructor|].
  destruct (decide (name p ∈ seen)); [done|]. simpl. constructor; [|done].
  rewrite filterNew_names. set_solver.
Qed.

Lemma filterUnique_sublist (seen : gset jsstring) (ps : list Participant) :
  filterUnique seen ps `sublist_of` ps.
Proof.
  revert seen. induction ps as [|p ps IH]; intros seen; simpl; [done|].
  destruct (bool_decide (name p ∈ seen)); simpl;
    [by apply sublist_cons|by apply sublist_skip].
Qed.






(** ** The participant store *)


(** C9. [clearParticipants] empties the participant list, the draw history
    and the groups, whatever they held. *)
Theorem clearParticipants_empties_all (st : AppState) :
  participants (clearParticipants st) = []
  ∧ drawHistory (clearParticipants st) = []
  ∧ groups (clearParticipants st) = [].
Proof. done. Qed.

(** The Clear All button reaches [clearParticipants] when it was rendered
    with a list that is not empty; rendered with an empty list it is
    disabled. *)
Lemma clearAll_button {E : Engine} (random : nat → rnd) (render : AppState) (w : World) :
  handle random ClickClearAll render w
  = Some (if length (participants render) =? 0 then w
          else withApp clearParticipants w).
Proof. done. Qed.

(** C10. The history panel's Clear button empties the draw history and
    leaves every other cell, the timers, the pending uploads, the random
    stream and a leaving panel as they were; the displayed winner stays.
    The handler reads nothing, so this is what the button does whichever
    render made it, and what a click does whenever the draw panel is on the
    page. *)
Theorem clearHistory_frame {E : Engine} (random : nat → rnd) (w : World) :
  ∃ w', (∀ render, handle random ClickClearHistory render w = Some w')
    ∧ (fst (shown w) = tab_draw → dispatch random ClickClearHistory w = Some w')
    ∧ exiting w' = exiting w
    ∧ drawHistory (appState w') = []
    ∧ participants (appState w') = participants (appState w)
    ∧ groups (appState w') = groups (appState w)
    ∧ currentWinner (appState w') = currentWinner (appState w)
    ∧ isDrawing (appState w') = isDrawing (appState w)
    ∧ allowRepeat (appState w') = allowRepeat (appState w)
    ∧ activeTab (appState w') = activeTab (appState w)
    ∧ inputText (appState w') = inputText (appState w)
    ∧ autoDeduplicate (appState w') = autoDeduplicate (appState w)
    ∧ groupSize (appState w') = groupSize (appState w)
    ∧ timers w' = timers w ∧ uploads w' = uploads w ∧ cursor w' = cursor w.
Proof.
  exists (withApp clearHistory w). split; [done|]. split; [|by repeat split].
  intros Htab. unfold dispatch. simpl. by rewrite decide_True.
Qed.

Section Store.
Context {E : Engine}.
Variable random : nat → rnd.

Lemma newParticipantsFrom_spec (names : list jsstring) (pos : nat) :
  name <$> fst (newParticipantsFrom random names pos) = names
  ∧ id <$> fst (newParticipantsFrom random names pos)
    = (λ i, toString36_substr (random i)) <$> seq pos (length names)
  ∧ snd (newParticipantsFrom random names pos) = pos + length names.
Proof.
  revert pos. induction names as [|n names IH]; intros pos; simpl.
  - split_and!; [done|done|lia].
  - specialize (IH (S pos)).
    destruct (newParticipantsFrom random names (S pos)) as [ps pos'].
    simpl in *. destruct IH as (Hn & Hi & Hp).
    split_and!; [f_equal; exact Hn|f_equal; exact Hi|lia].
Qed.

Lemma addNames_participants (names : list jsstring) (dedupe : bool)
    (closure : list Participant) (w : World) :
  ∃ added,
    participants (appState (addNames random names dedupe closure w))
    = participants (appState w) ++ added
    ∧ added = (if dedupe then filterNew (nameSet closure) else λ l, l)
                (fst (newParticipantsFrom random names (cursor w)))
    ∧ cursor (addNames random names dedupe closure w) = cursor w + length names.
Proof.
  unfold addNames.
  pose proof (newParticipantsFrom_spec names (cursor w)) as (_ & _ & Hpos).
  simpl. eexists. split; [reflexivity|]. by destruct dedupe.
Qed.

(** C7, at the input on which the code fails it.  With auto-deduplicate on,
    [handleAddFromText] adds every name of the text that the list of its
    render does not hold, whether or not the list it appends to holds it.
    Alice is typed and the draw tab is selected, so the participants panel is
    leaving; its Add button, clicked twice, runs twice the handler of the
    panel's last render, which compares the names of the text with the list
    that render saw, the empty one.  The second click adds Alice to a list
    that holds Alice. *)
Theorem add_on_leaving_panel_repeats_name :
  (∀ render w n,
     autoDeduplicate render = true →
     n ∈ namesOfText (inputText render) → n ∉ name <$> participants render →
     ∃ added, participants (appState (handleAddFromText random render w))
              = participants (appState w) ++ added
              ∧ n ∈ name <$> added)
  ∧ ∃ w1 w2,
      run random (Reference.leavingSourceEvents ++ [ClickAdd]) initialWorld = Some w1
      ∧ name <$> participants (appState w1) = [Reference.alice]
      ∧ autoDeduplicate (appState w1) = true
      ∧ autoDeduplicate (snd (shown w1)) = true
      ∧ dispatch random ClickAdd w1 = Some w2
      ∧ name <$> participants (appState w2) = [Reference.alice; Reference.alice]
      ∧ cursor w2 = 2.
Proof.
  split.
  - intros render w n Hon Hn Hseen.
    destruct (addNames_participants (namesOfText (inputText render)) true
                (participants render) w) as (added & Hps & -> & _).
    pose proof (newParticipantsFrom_spec (namesOfText (inputText render)) (cursor w))
      as (Hnames & _ & _).
    eexists. split.
    + unfold handleAddFromText. rewrite Hon. exact Hps.
    + apply filterNew_names. split; [by rewrite Hnames|].
      unfold nameSet. by rewrite elem_of_list_to_set.
  - eexists. eexists. split; [vm_compute; reflexivity|]. by vm_compute.
Qed.
End Store.

(** ** Grouping *)

Lemma length_concat_sum {A} (gs : list (list A)) :
  sum_list (length <$> gs) = length (concat gs).
Proof.
  induction gs as [|g gs IH]; [done|]. simpl. rewrite length_app. by f_equal.
Qed.

Lemma slice_chunk {A} (l : list A) (i size : Z) :
  (0 ≤ i)%Z → (i < Z.of_nat (length l))%Z → (0 < size)%Z →
  slice l i (i + size)
  = take (Z.to_nat (Z.min (i + size) (Z.of_nat (length l)) - i)) (drop (Z.to_nat i) l).
Proof.
  intros Hi Hlen Hsize. unfold slice.
  destruct (Z.ltb_spec i 0); [lia|]. destruct (Z.ltb_spec (i + size) 0); [lia|].
  by rewrite (Z.min_l i) by lia.
Qed.

(** The loop ends when [groupSize] is positive, within [length - i + 1]
    iterations, and then it has cut the rest of the list into chunks. *)
Lemma chunkLoop_fuel {A} (l : list A) (size : Z) (fuel : nat) (i : Z)
    (acc : list (list A)) :
  (0 < size)%Z → (0 ≤ i)%Z → length l - Z.to_nat i < fuel →
  ∃ gs, chunkLoop fuel l size i acc = Some (acc ++ gs)
    ∧ concat gs = drop (Z.to_nat i) l
    ∧ allButLast (λ g, Z.of_nat (length g) = size) gs
    ∧ Forall (λ g, g ≠ [] ∧ (Z.of_nat (length g) ≤ size)%Z) gs.
Proof.
  intros Hsize. revert i acc.
  induction fuel as [|fuel IH]; intros i acc Hi Hfuel; [lia|].
  simpl. destruct (Z.ltb_spec i (Z.of_nat (length l))) as [Hlt|Hge].
  - destruct (IH (i + size)%Z (acc ++ [slice l i (i + size)])) as (gs & -> & Hcat & Hfull & Hne);
      [lia|lia|].
    rewrite slice_chunk by lia.
    set (g := take (Z.to_nat (Z.min (i + size) (Z.of_nat (length l)) - i))
                   (drop (Z.to_nat i) l)).
    assert (length g = Z.to_nat (Z.min (i + size) (Z.of_nat (length l)) - i)) as Hg.
    { unfold g. rewrite length_take, length_drop. lia. }
    exists (g :: gs). split_and!.
    + by rewrite <- app_assoc.
    + simpl. rewrite Hcat. unfold g.
      destruct (Z.le_gt_cases (i + size) (Z.of_nat (length l))) as [Hin|Hout].
      * rewrite Z.min_l by lia.
        replace (Z.to_nat (i + size)) with (Z.to_nat i + Z.to_nat (i + size - i)) by lia.
        rewrite <- drop_drop. apply take_drop.
      * rewrite (drop_ge l (Z.to_nat (i + size))) by lia.
        rewrite app_nil_r. apply take_ge. rewrite length_drop. lia.
    + intros j x Hj Hlast. destruct j as [|j]; simpl in *.
      * injection Hj as <-.
        destruct (Z.le_gt_cases (Z.of_nat (length l)) (i + size)) as [Hout|Hin]; [|lia].
        exfalso. rewrite (drop_ge l (Z.to_nat (i + size))) in Hcat by lia.
        destruct gs as [|g' gs]; [simpl in Hlast; lia|].
        apply Forall_cons in Hne as [[Hg' _] _]. simpl in Hcat.
        by apply app_eq_nil in Hcat as [? _].
      * apply (Hfull j x Hj). lia.
    + constructor; [|done]. split; [|lia]. intros Hnil. rewrite Hnil in Hg. simpl in Hg. lia.
  - exists []. rewrite app_nil_r, drop_ge by lia. split_and!; [done|done| |done].
    intros j x Hj. by rewrite lookup_nil in Hj.
Qed.

(** The loop never reaches its exit test when [groupSize] is not positive. *)
Lemma chunkLoop_diverges {A} (l : list A) (size : Z) (fuel : nat) (i : Z)
    (acc : list (list A)) :
  l ≠ [] → (size ≤ 0)%Z → (i ≤ 0)%Z → chunkLoop fuel l size i acc = None.
Proof.
  intros Hl Hsize. revert i acc. induction fuel as [|fuel IH]; intros i acc Hi; [done|].
  simpl. destruct (Z.ltb_spec i (Z.of_nat (length l))) as [_|Hge].
  - apply IH. lia.
  - destruct l; [done|]. simpl in Hge. lia.
Qed.

Section Grouping.
Context {E : Engine}.
Variable random : nat → rnd.
Hypothesis sort_ok : sort_permutes E.

Lemma shuffle_permutes (ps : list Participant) (pos : nat) :
  fst (shuffle random ps pos) ≡ₚ ps.
Proof using sort_ok. unfold shuffle. simpl. apply sort_ok. Qed.


(** C2. With participants in the list and a group size below one,
    [handleGrouping] does not complete: no number of loop iterations reaches
    the exit test.  (With an empty list it returns at once and changes
    nothing.) *)
Theorem handleGrouping_size_below_one (render : AppState) (w : World) (fuel : nat) :
  participants render ≠ [] →
  (groupSize render < 1)%Z →
  handleGrouping random fuel render w = None.
Proof using sort_ok.
  intros Hne Hsize. unfold handleGrouping.
  destruct (Nat.eqb_spec (length (participants render)) 0) as [Hz|_].
  { by apply length_zero_iff_nil in Hz. }
  pose proof (shuffle_permutes (participants render) (cursor w)) as Hperm.
  rewrite chunkLoop_diverges; [done| |lia|lia].
  intros Hnil. rewrite Hnil in Hperm. apply Permutation_nil_l in Hperm. by apply Hne.
Qed.
End Grouping.

Lemma handleGrouping_empty {E : Engine} (random : nat → rnd) (render : AppState)
    (w : World) (fuel : nat) :
  participants render = [] → handleGrouping random fuel render w = Some w.
Proof. intros Hnil. unfold handleGrouping. by rewrite Hnil. Qed.

(** ** The draw *)

Lemma steps_eq : steps = 40.
Proof. reflexivity. Qed.

Lemma filter_length_insert {A} (P : A → Prop) `{!∀ x, Decision (P x)}
    (l : list A) (k : nat) (x y : A) :
  l !! k = Some x →
  length (filter P (<[k := y]> l)) + (if decide (P x) then 1 else 0)
  = length (filter P l) + (if decide (P y) then 1 else 0).
Proof.
  intros Hk. rewrite insert_take_drop by (by eapply lookup_lt_Some).
  rewrite <- (take_drop_middle l k x Hk) at 3.
  rewrite !filter_app, !filter_cons, !length_app.
  destruct (decide (P x)), (decide (P y)); simpl; lia.
Qed.

Section Draw.
Context {E : Engine}.
Variable random : nat → rnd.

Lemma run_app (l1 l2 : list Event) (w : World) :
  run random (l1 ++ l2) w = run random l1 w ≫= run random l2.
Proof.
  revert w. induction l1 as [|e l1 IH]; intros w; simpl; [done|].
  destruct (dispatch random e w); [apply IH|done].
Qed.

Lemma timerCallback_running (k : nat) (w : World) (A : list Participant) (c : nat) :
  timers w !! k = Some (Some (mkTimer A c)) → S c < steps →
  timerCallback random k w
  = Some (mkWorld
            (setCurrentWinner (A !! floor_times (random (cursor w)) (length A)) (appState w))
            (<[k := Some (mkTimer A (S c))]> (timers w)) (uploads w) (S (cursor w))
            (exiting w)).
Proof.
  intros Hk Hc. unfold timerCallback. rewrite Hk. cbn [t_available t_counter].
  destruct (Nat.leb_spec steps (S c)); [lia|done].
Qed.

Lemma timerCallback_commit (k : nat) (w : World) (A : list Participant) (c : nat) :
  random_index_in_range E → A ≠ [] →
  timers w !! k = Some (Some (mkTimer A c)) → steps ≤ S c →
  ∃ winner, winner ∈ A
    ∧ timerCallback random k w
      = Some (mkWorld
                (setIsDrawing false
                   (setDrawHistory (λ prev, winner :: prev)
                      (setCurrentWinner (Some winner) (appState w))))
                (<[k := None]> (timers w)) (uploads w) (S (S (cursor w)))
                (exiting w)).
Proof.
  intros Hidx HA Hk Hc. unfold timerCallback. rewrite Hk. cbn [t_available t_counter].
  destruct (Nat.leb_spec steps (S c)); [|lia].
  assert (0 < length A) as Hlen by (destruct A; [done|simpl; lia]).
  destruct (lookup_lt_is_Some_2 A (floor_times (random (S (cursor w))) (length A)))
    as [winner Hw]; [by apply Hidx|].
  rewrite Hw. exists winner. split; [by eapply list_elem_of_lookup_2|done].
Qed.

(** An event changes nothing, or it is handled as the current state renders
    its element, or as the panel on the page was rendered. *)
Lemma dispatch_handle (e : Event) (w w' : World) :
  dispatch random e w = Some w' →
  w' = w
  ∨ ∃ render, (render = appState w ∨ render = snd (shown w))
              ∧ handle random e render w = Some w'.
Proof.
  unfold dispatch. destruct (panelOf e) as [tab|].
  - case_decide; [|intros [= <-]; by left].
    intros Hd. right. exists (snd (shown w)). by split; [right|].
  - intros Hd. right. exists (appState w). by split; [left|].
Qed.

(** Events other than the draw button and a timer leave the timers and the
    in-progress flag alone. *)
Lemma handle_frame_draw (e : Event) (render : AppState) (w w' : World) :
  handle random e render w = Some w' →
  e ≠ ClickDraw → (∀ k, e ≠ TimerFires k) →
  timers w' = timers w ∧ isDrawing (appState w') = isDrawing (appState w).
Proof.
  intros Hd Hdraw Htimer.
  destruct e; simpl in Hd; try (injection Hd as <-); try done.
  - unfold uploadComplete. by destruct (uploads w !! k) as [[u|]|].
  - by destruct (listButtonsDisabled render).
  - by destruct (listButtonsDisabled render).
  - by case_decide.
  - by specialize (Htimer k).
  - destruct (listButtonsDisabled render); [by injection Hd as <-|].
    unfold handleGrouping in Hd.
    destruct (length (participants render) =? 0); [by injection Hd as <-|].
    destruct (chunkLoop _ _ _ _ _); [by injection Hd as <-|done].
Qed.





Lemma startDraw_registers (render : AppState) (w : World) :
  availableParticipants render ≠ [] →
  timers (startDraw render w) !! length (timers w)
  = Some (Some (mkTimer (availableParticipants render) 0))
  ∧ drawHistory (appState (startDraw render w)) = drawHistory (appState w).
Proof.
  intros HA. unfold startDraw.
  destruct (Nat.eqb_spec (length (availableParticipants render)) 0) as [Hz|_].
  { by apply length_zero_iff_nil in Hz. }
  simpl. split; [|done]. by rewrite list_lookup_middle.
Qed.

End Draw.

(** ** One reveal at a time *)

Section Reveal.
Context {E : Engine}.
Variable random : nat → rnd.

Lemma activeTimers_insert (w : World) (k : nat) (t : Timer) (x : option Timer) :
  timers w !! k = Some (Some t) →
  length (filter (λ t : option Timer, is_Some t) (<[k := x]> (timers w))) + 1
  = activeTimers w + (match x with Some _ => 1 | None => 0 end).
Proof.
  intros Hk. unfold activeTimers.
  pose proof (filter_length_insert (λ t : option Timer, is_Some t) (timers w) k _ x Hk) as Hc.
  destruct x; repeat case_decide;
    first [lia
          |exfalso; match goal with
                    | H : ¬ is_Some (Some _) |- _ => apply H; eauto
                    | H : is_Some None |- _ => by inv H
                    end].
Qed.

(** While no panel is leaving, and for the header and the callbacks always,
    an event is handled as the current state renders its element. *)
Lemma dispatch_settled (e : Event) (w w' : World) :
  panelOf e = None ∨ exiting w = None →
  dispatch random e w = Some w' →
  w' = w ∨ handle random e (appState w) w = Some w'.
Proof.
  intros Hs. unfold dispatch. destruct (panelOf e) as [tab|]; [|by right].
  destruct Hs as [?|Hs]; [done|]. unfold shown. rewrite Hs. simpl.
  case_decide; [by right|intros [= <-]; by left].
Qed.

Lemma settledRun_cons (e : Event) (evs : list Event) (w w1 : World) :
  settledRun random (e :: evs) w = true → dispatch random e w = Some w1 →
  (panelOf e = None ∨ exiting w = None) ∧ settledRun random evs w1 = true.
Proof.
  simpl. intros Hs Hd.
  destruct (panelOf e), (exiting w); try done; rewrite Hd in Hs; eauto.
Qed.

(** Handled from the current state, an event keeps the in-progress flag in
    step with the timers. *)
Lemma handle_drawInv (e : Event) (w w' : World) :
  handle random e (appState w) w = Some w' → drawInv w → drawInv w'.
Proof.
  intros Hd Hinv.
  destruct (decide (e = ClickDraw)) as [->|Hdraw].
  { simpl in Hd. injection Hd as <-. unfold drawDisabled.
    destruct (isDrawing (appState w)) eqn:Hflag; simpl; [done|].
    destruct (length (availableParticipants (appState w)) =? 0) eqn:Hlen; [done|].
    unfold startDraw. rewrite Hlen. unfold drawInv, activeTimers in *. simpl.
    rewrite Hflag in Hinv. rewrite filter_app, length_app, Hinv. done. }
  destruct e; try by (destruct (handle_frame_draw random _ _ _ _ Hd) as [Ht Hf];
                        [done..|]; unfold drawInv, activeTimers in *; by rewrite Ht, Hf).
  simpl in Hd. unfold timerCallback in Hd.
  destruct (timers w !! k) as [[t|]|] eqn:Hk; [|by injection Hd as <-..].
  pose proof (activeTimers_insert w k t) as Hins.
  assert (0 < activeTimers w) as Hpos.
  { unfold activeTimers. apply list_elem_of_lookup_2 in Hk.
    assert (Some t ∈ filter (λ t : option Timer, is_Some t) (timers w)) as Hin
      by (by apply list_elem_of_filter).
    destruct (filter _ (timers w)); [by apply not_elem_of_nil in Hin|simpl; lia]. }
  unfold drawInv in *. destruct (isDrawing (appState w)) eqn:Hflag; [|lia].
  destruct (steps <=? S (t_counter t)).
  - destruct (t_available t !! _); [|done]. injection Hd as <-.
    unfold activeTimers. simpl. specialize (Hins None Hk). simpl in Hins. lia.
  - injection Hd as <-. unfold activeTimers. simpl. rewrite Hflag.
    specialize (Hins (Some (mkTimer (t_available t) (S (t_counter t)))) Hk).
    simpl in Hins. lia.
Qed.

Lemma run_drawInv (evs : list Event) (w w' : World) :
  settledRun random evs w = true →
  run random evs w = Some w' → drawInv w → drawInv w'.
Proof.
  revert w. induction evs as [|e evs IH]; intros w Hs Hrun Hinv; simpl in Hrun.
  - by injection Hrun as <-.
  - destruct (dispatch random e w) as [w1|] eqn:Hd; [|done].
    destruct (settledRun_cons e evs w w1 Hs Hd) as [Hlive Hs1].
    apply (IH w1 Hs1 Hrun).
    destruct (dispatch_settled e w w1 Hlive Hd) as [->|Hh]; [done|].
    by eapply handle_drawInv.
Qed.

(** C3, at the input on which the code fails it.  [startDraw] does not look
    at the in-progress flag: whenever the eligible list it reads is not
    empty it blanks the display and registers one more interval.  What
    keeps it from running during a draw is the button's [disabled]
    attribute, and that is the attribute of the render that made the button.
    With Alice in the list and the draw panel leaving, rendered while no draw
    was in progress, a first click on Draw starts a reveal and the second
    click, on the same enabled button, starts another one beside it. *)
Theorem draw_on_leaving_panel_starts_second_reveal :
  (∀ render w, availableParticipants render ≠ [] →
     activeTimers (startDraw render w) = S (activeTimers w)
     ∧ currentWinner (appState (startDraw render w)) = None
     ∧ isDrawing (appState (startDraw render w)) = true)
  ∧ ∃ w0 w1 w2,
      run random Reference.leavingDrawEvents initialWorld = Some w0
      ∧ isDrawing (appState w0) = false
      ∧ dispatch random ClickDraw w0 = Some w1
      ∧ isDrawing (appState w1) = true
      ∧ activeTimers w1 = 1
      ∧ dispatch random ClickDraw w1 = Some w2
      ∧ activeTimers w2 = 2
      ∧ timers w2
        = replicate 2
            (Some (mkTimer [mkParticipant (toString36_substr (random 0)) Reference.alice] 0))
      ∧ allowRepeat (appState w2) = false.
Proof.
  split.
  - intros render w HA. unfold startDraw.
    destruct (Nat.eqb_spec (length (availableParticipants render)) 0) as [Hz|_].
    { by apply length_zero_iff_nil in Hz. }
    unfold activeTimers. simpl. rewrite filter_app, length_app. simpl.
    split; [lia|done].
  - do 3 eexists. split; [vm_compute; reflexivity|]. split; [reflexivity|].
    split; [vm_compute; reflexivity|]. split; [reflexivity|]. split; [reflexivity|].
    split; [vm_compute; reflexivity|]. by vm_compute.
Qed.
End Reveal.

(** ** The store along any run *)

Section StoreInvariant.
Context {E : Engine}.
Variable random : nat → rnd.

Lemma Forall_sublist {A} (P : A → Prop) (l1 l2 : list A) :
  l1 `sublist_of` l2 → Forall P l2 → Forall P l1.
Proof.
  rewrite !Forall_forall. intros Hsub HP x Hx. apply HP. by eapply elem_of_sublist.
Qed.

(** What one event does to the list, handled as [render] has it: it keeps
    some of the entries, in order, of the list it finds or (the manual
    deduplication) of the list [render] saw, and appends some of the entries
    made for [names] from the next call of [Math.random()] on. *)
Lemma handle_participants (e : Event) (render : AppState) (w w' : World) :
  handle random e render w = Some w' →
  ∃ base kept added names,
    (base = participants (appState w) ∨ base = participants render)
    ∧ participants (appState w') = kept ++ added
    ∧ kept `sublist_of` base
    ∧ added `sublist_of` fst (newParticipantsFrom random names (cursor w))
    ∧ Forall goodName names
    ∧ cursor w + length names ≤ cursor w'.
Proof.
  intros Hd.
  set (Shape := λ w1 : World,
         ∃ base kept added names,
           (base = participants (appState w) ∨ base = participants render)
           ∧ participants (appState w1) = kept ++ added
           ∧ kept `sublist_of` base
           ∧ added `sublist_of` fst (newParticipantsFrom random names (cursor w))
           ∧ Forall goodName names
           ∧ cursor w + length names ≤ cursor w1).
  assert (∀ names dedupe closure (w0 w1 : World),
            Forall goodName names →
            participants (appState w0) = participants (appState w) →
            cursor w0 = cursor w →
            participants (appState w1)
            = participants (appState (addNames random names dedupe closure w0)) →
            cursor w1 = cursor (addNames random names dedupe closure w0) →
            Shape w1) as Hadd.
  { intros names dedupe closure w0 w1 Hgood Hps Hpos Hps1 Hpos1.
    exists (participants (appState w)), (participants (appState w)),
      (if dedupe
       then filterNew (nameSet closure) (fst (newParticipantsFrom random names (cursor w)))
       else fst (newParticipantsFrom random names (cursor w))), names.
    rewrite Hps1, Hpos1. unfold addNames. simpl. rewrite Hps, Hpos.
    split_and!; try done; [by left| |].
    - destruct dedupe; [apply filterNew_sublist|done].
    - pose proof (newParticipantsFrom_spec random names (cursor w)) as (_ & _ & ->). lia. }
  assert (∀ w1 : World,
            participants (appState w1) `sublist_of` participants (appState w) →
            cursor w ≤ cursor w1 → Shape w1) as Hkeep.
  { intros w1 Hsub Hpos.
    exists (participants (appState w)), (participants (appState w1)), [], [].
    rewrite app_nil_r. simpl. split_and!; try done; [by left|lia]. }
  assert (∀ w1 : World,
            participants (appState w1) `sublist_of` participants render →
            cursor w ≤ cursor w1 → Shape w1) as Hseen.
  { intros w1 Hsub Hpos.
    exists (participants render), (participants (appState w1)), [], [].
    rewrite app_nil_r. simpl. split_and!; try done; [by right|lia]. }
  fold (Shape w'). clearbody Shape.
  destruct e; simpl in Hd; try (injection Hd as <-); try (by apply Hkeep).
  - unfold handleAddFromText.
    eapply (Hadd _ _ _ w); [apply namesOfText_good|done..].
  - unfold uploadComplete. destruct (uploads w !! k) as [[u|]|]; try (by apply Hkeep).
    eapply Hadd; [apply namesOfRows_good| | |done|done]; done.
  - destruct (listButtonsDisabled render); [by apply Hkeep|].
    apply Hseen; [|done]. simpl. apply filterUnique_sublist.
  - destruct (listButtonsDisabled render); apply Hkeep; try done.
    simpl. apply sublist_nil_l.
  - case_decide; apply Hkeep; try done. simpl. apply sublist_filter.
  - destruct (drawDisabled render); [by apply Hkeep|].
    unfold startDraw. destruct (length _ =? 0); by apply Hkeep.
  - unfold timerCallback in Hd. destruct (timers w !! k) as [[t|]|].
    + destruct (steps <=? S (t_counter t)).
      * destruct (t_available t !! _); [|done]. injection Hd as <-.
        apply Hkeep; simpl; [done|lia].
      * injection Hd as <-. apply Hkeep; simpl; [done|lia].
    + injection Hd as <-. by apply Hkeep.
    + injection Hd as <-. by apply Hkeep.
  - destruct (listButtonsDisabled render); [injection Hd as <-; by apply Hkeep|].
    unfold handleGrouping in Hd.
    destruct (length (participants render) =? 0); [injection Hd as <-; by apply Hkeep|].
    destruct (chunkLoop _ _ _ _ _); [|done]. injection Hd as <-.
    apply Hkeep; simpl; [done|lia].
Qed.

(** A panel that is leaving after an event was leaving before it, or it is
    the panel the state before the event rendered. *)
Lemma handle_exiting (e : Event) (render : AppState) (w w' : World)
    (leaving : Tab * AppState) :
  handle random e render w = Some w' → exiting w' = Some leaving →
  exiting w = Some leaving ∨ snd leaving = appState w.
Proof.
  intros Hd Hex.
  destruct e; simpl in Hd; try (injection Hd as <-); try (by left).
  - simpl in Hex. destruct (exiting w) as [[key frozen]|].
    + case_decide; [done|by left].
    + case_decide; [done|]. injection Hex as <-. by right.
  - revert Hex. unfold uploadComplete. destruct (uploads w !! k) as [[u|]|]; by left.
  - revert Hex. destruct (listButtonsDisabled render); by left.
  - revert Hex. destruct (listButtonsDisabled render); by left.
  - revert Hex. case_decide; by left.
  - revert Hex. destruct (drawDisabled render); [by left|].
    unfold startDraw. destruct (length _ =? 0); by left.
  - unfold timerCallback in Hd. destruct (timers w !! k) as [[t|]|];
      [|injection Hd as <-; by left..].
    destruct (steps <=? S (t_counter t)); [|injection Hd as <-; by left].
    destruct (t_available t !! _); [injection Hd as <-; by left|done].
  - destruct (listButtonsDisabled render); [injection Hd as <-; by left|].
    unfold handleGrouping in Hd.
    destruct (length (participants render) =? 0); [injection Hd as <-; by left|].
    destruct (chunkLoop _ _ _ _ _); [injection Hd as <-; by left|done].
Qed.

(** What one event does to the lists a handler can meet. *)
Lemma dispatch_participants (e : Event) (w w' : World) :
  dispatch random e w = Some w' →
  cursor w ≤ cursor w'
  ∧ ∀ ps', ps' ∈ storeLists w' →
      ∃ base kept added names,
        base ∈ storeLists w
        ∧ ps' = kept ++ added
        ∧ kept `sublist_of` base
        ∧ added `sublist_of` fst (newParticipantsFrom random names (cursor w))
        ∧ Forall goodName names
        ∧ cursor w + length names ≤ cursor w'.
Proof.
  assert (∀ ps w1, ps ∈ storeLists w → cursor w ≤ cursor w1 →
            ∃ base kept added names,
              base ∈ storeLists w
              ∧ ps = kept ++ added
              ∧ kept `sublist_of` base
              ∧ added `sublist_of` fst (newParticipantsFrom random names (cursor w))
              ∧ Forall goodName names
              ∧ cursor w + length names ≤ cursor w1) as Hsame.
  { intros ps w1 Hps Hpos. exists ps, ps, [], []. rewrite app_nil_r. simpl.
    split_and!; try done. lia. }
  intros [->|(render & Hrender & Hd)]%dispatch_handle.
  { split; [done|]. intros ps' Hps'. by apply Hsame. }
  destruct (handle_participants e render w w' Hd)
    as (base & kept & added & names & Hbase & Hps & Hkept & Hadded & Hgood & Hpos).
  assert (base ∈ storeLists w) as Hin.
  { unfold storeLists. destruct Hbase as [Hb|Hb]; rewrite Hb; [set_solver|].
    destruct Hrender as [Hr|Hr]; rewrite Hr; set_solver. }
  split; [lia|]. intros ps' Hps'.
  assert (ps' = participants (appState w') → ∃ base kept added names,
              base ∈ storeLists w
              ∧ ps' = kept ++ added
              ∧ kept `sublist_of` base
              ∧ added `sublist_of` fst (newParticipantsFrom random names (cursor w))
              ∧ Forall goodName names
              ∧ cursor w + length names ≤ cursor w') as Hnow.
  { intros ->. by exists base, kept, added, names. }
  unfold storeLists in Hps'.
  apply elem_of_cons in Hps' as [Hps'|Hps']; [by apply Hnow|].
  apply list_elem_of_singleton in Hps'. unfold shown in Hps'.
  destruct (exiting w') as [leaving|] eqn:Hex; [|by apply Hnow].
  apply Hsame; [|lia]. subst ps'. unfold storeLists, shown.
  destruct (handle_exiting e render w w' leaving Hd Hex) as [Hl|Hl]; rewrite Hl; set_solver.
Qed.

Lemma dispatch_namesGood (e : Event) (w w' : World) :
  dispatch random e w = Some w' → namesGood w → namesGood w'.
Proof.
  intros Hd Hgood ps' Hps'.
  destruct (dispatch_participants e w w' Hd) as [_ Hshape].
  destruct (Hshape ps' Hps') as (base & kept & added & names & Hb & -> & Hk & Ha & Hn & _).
  apply Forall_app. split; [eapply Forall_sublist; [exact Hk|by apply Hgood]|].
  eapply Forall_sublist; [exact Ha|].
  pose proof (newParticipantsFrom_spec random names (cursor w)) as (Hnames & _ & _).
  apply (proj1 (Forall_fmap name goodName _)). by rewrite Hnames.
Qed.

Lemma idsIssued_inj (n i j : nat) :
  NoDup (idsIssued random n) → i < n → j < n →
  toString36_substr (random i) = toString36_substr (random j) → i = j.
Proof.
  intros Hnd Hi Hj Heq. unfold idsIssued in Hnd.
  apply (NoDup_lookup _ i j (toString36_substr (random i)) Hnd).
  - by rewrite list_lookup_fmap, lookup_seq_lt.
  - rewrite list_lookup_fmap, lookup_seq_lt by done. simpl. by rewrite Heq.
Qed.

Lemma idsIssued_prefix (n m : nat) :
  n ≤ m → NoDup (idsIssued random m) → NoDup (idsIssued random n).
Proof.
  intros Hle. unfold idsIssued.
  replace m with (n + (m - n)) by lia. rewrite seq_app, fmap_app.
  by intros [? _]%NoDup_app.
Qed.

Lemma dispatch_idsFresh (e : Event) (w w' : World) :
  dispatch random e w = Some w' →
  cursor w ≤ cursor w'
  ∧ (NoDup (idsIssued random (cursor w')) → idsFresh random w → idsFresh random w').
Proof.
  intros Hd. destruct (dispatch_participants e w w' Hd) as [Hle Hshape].
  split; [done|]. intros Hnd Hfresh ps' Hps'.
  destruct (Hshape ps' Hps') as (base & kept & added & names & Hb & -> & Hk & Ha & _ & Hpos).
  destruct (Hfresh base Hb) as [Hold Hfrom]. rewrite fmap_app.
  pose proof (newParticipantsFrom_spec random names (cursor w)) as (_ & Hids & _).
  assert (∀ x, x ∈ id <$> added →
               ∃ i, (cursor w ≤ i < cursor w + length names) ∧ x = toString36_substr (random i))
    as Hnew.
  { intros x Hx.
    assert (x ∈ id <$> fst (newParticipantsFrom random names (cursor w))) as Hx'.
    { eapply elem_of_sublist; [exact Hx|]. by apply fmap_sublist. }
    rewrite Hids in Hx'. apply list_elem_of_fmap in Hx' as (i & -> & Hi%elem_of_seq).
    by exists i. }
  assert (∀ x, x ∈ id <$> kept → ∃ i, i < cursor w ∧ x = toString36_substr (random i))
    as Hkept.
  { intros x Hx. apply Hfrom. eapply elem_of_sublist; [exact Hx|]. by apply fmap_sublist. }
  split.
  - apply NoDup_app. split_and!.
    + eapply sublist_NoDup; [exact Hold|]. by apply fmap_sublist.
    + intros x (i & Hi & ->)%Hkept (j & Hj & Heq)%Hnew.
      assert (i = j) by (apply (idsIssued_inj (cursor w')); [done|lia..|done]). lia.
    + eapply sublist_NoDup; [|apply fmap_sublist, Ha]. rewrite Hids.
      apply (NoDup_fmap_2_strong _).
      * intros i j Hi%elem_of_seq Hj%elem_of_seq Heq.
        apply (idsIssued_inj (cursor w')); [done|lia..|done].
      * apply NoDup_seq.
  - intros x [Hx|Hx]%elem_of_app.
    + destruct (Hkept x Hx) as (i & Hi & ->). exists i. split; [lia|done].
    + destruct (Hnew x Hx) as (i & Hi & ->). exists i. split; [lia|done].
Qed.

Lemma run_store (evs : list Event) (w w' : World) :
  run random evs w = Some w' →
  cursor w ≤ cursor w'
  ∧ (namesGood w → namesGood w')
  ∧ (NoDup (idsIssued random (cursor w')) → idsFresh random w → idsFresh random w').
Proof.
  revert w. induction evs as [|e evs IH]; intros w Hrun; simpl in Hrun.
  - injection Hrun as <-. by split_and!.
  - destruct (dispatch random e w) as [w1|] eqn:Hd; [|done].
    destruct (IH w1 Hrun) as (Hpos & Hnames & Hids).
    destruct (dispatch_idsFresh e w w1 Hd) as [Hpos1 Hids1].
    split_and!; [lia| |].
    + intros Hgood. apply Hnames. by eapply dispatch_namesGood.
    + intros Hnd Hfresh. apply (Hids Hnd). apply Hids1; [|done].
      by eapply idsIssued_prefix.
Qed.

(** C4, as the code has it.  Along every run from the initial state each
    entry of the list has a name that is not empty and has nothing left to
    trim.  The ids are what [Math.random()] gave, cut to nine characters, and
    nothing compares them: they are pairwise different as long as the ids
    given by the calls made so far are. *)
Theorem store_invariant (evs : list Event) (w : World) :
  run random evs initialWorld = Some w →
  Forall (λ p, name p ≠ [] ∧ trim (name p) = name p) (participants (appState w))
  ∧ (NoDup (idsIssued random (cursor w)) → NoDup (id <$> participants (appState w))).
Proof.
  intros Hrun. destruct (run_store evs initialWorld w Hrun) as (_ & Hnames & Hids).
  assert (participants (appState w) ∈ storeLists w) as Hin by (unfold storeLists; set_solver).
  assert (∀ ps, ps ∈ storeLists initialWorld → ps = []) as Hinit.
  { intros ps. unfold storeLists, shown. simpl. set_solver. }
  split.
  - apply Hnames; [|done]. intros ps ->%Hinit. constructor.
  - intros Hnd. apply Hids; [done| |done]. intros ps ->%Hinit. split; simpl; [constructor|].
    by intros x ?%not_elem_of_nil.
Qed.
End StoreInvariant.

(** ** The shuffle as an experiment *)

Lemma length_bind_const {A B} (f : A → list B) (l : list A) (n : nat) :
  (∀ x, length (f x) = n) → length (l ≫= f) = length l * n.
Proof.
  intros Hf. induction l as [|x l IH]; [done|].
  rewrite bind_cons, length_app, Hf, IH. simpl. lia.
Qed.

Lemma length_sequences {A} (Ω : list A) (k : nat) :
  length (sequences Ω k) = length Ω ^ k.
Proof.
  induction k as [|k IH]; [done|]. simpl.
  rewrite (length_bind_const _ _ (length Ω ^ k)); [done|].
  intros x. by rewrite length_fmap.
Qed.

Lemma filter_length_split {A} (P Q R : A → Prop)
    `{!∀ x, Decision (P x), !∀ x, Decision (Q x), !∀ x, Decision (R x)} (l : list A) :
  (∀ x, R x ↔ P x ∨ Q x) → (∀ x, P x → Q x → False) →
  length (filter P l) + length (filter Q l) = length (filter R l).
Proof.
  intros HR Hdisj. induction l as [|x l IH]; [done|].
  rewrite !filter_cons.
  destruct (decide (P x)) as [HP|HP], (decide (Q x)) as [HQ|HQ], (decide (R x)) as [Hx|Hx];
    simpl; try lia; exfalso; naive_solver.
Qed.

(** Outcomes that fall into the distinct classes [ys] are counted by class. *)
Lemma count_by_class {X Y} `{EqDecision Y} (f : X → Y) (ys : list Y) (l : list X) :
  NoDup ys →
  sum_list ((λ y, length (filter (λ x, f x = y) l)) <$> ys)
  = length (filter (λ x, f x ∈ ys) l).
Proof.
  induction 1 as [|y ys Hy Hnd IH]; csimpl.
  - induction l as [|x l IHl]; [done|]. rewrite filter_cons.
    destruct (decide (f x ∈ [])) as [Hin|_]; [by apply not_elem_of_nil in Hin|done].
  - rewrite IH. apply filter_length_split.
    + intros x. rewrite elem_of_cons. naive_solver.
    + intros x -> Hin. done.
Qed.

Lemma filter_all {A} (P : A → Prop) `{!∀ x, Decision (P x)} (l : list A) :
  (∀ x, x ∈ l → P x) → filter P l = l.
Proof.
  induction l as [|x l IH]; intros HP; [done|].
  rewrite filter_cons, decide_True by (apply HP; left).
  f_equal. apply IH. intros y Hy. apply HP. by right.
Qed.

Lemma pow2_not_mul3 (n c : nat) : 2 ^ n ≠ 3 * c.
Proof.
  revert c. induction n as [|n IH]; intros c; simpl; [lia|].
  intros Heq. destruct (Nat.Even_or_Odd c) as [[c' ->]|[c' ->]]; [|lia].
  apply (IH c'). lia.
Qed.

Lemma permutations3_NoDup {A} (a b c : A) :
  a ≠ b → a ≠ c → b ≠ c → NoDup (permutations [a; b; c]).
Proof.
  intros Hab Hac Hbc. cbn.
  repeat (constructor; [rewrite ?elem_of_cons, ?elem_of_nil; naive_solver congruence|]).
  constructor.
Qed.

Section Shuffle.
Context {E : Engine}.
Hypothesis sort_ok : sort_permutes E.

(** C1, refuted for three participants.  Take any finite set [Ω] of equally
    likely values of [Math.random()] whose size is a power of two, and any
    number [k] of calls.  The six orders of three different participants
    cannot all come out of [shuffle] in equally many of the [k]-call
    experiments: the experiments number a power of two, which six equal
    shares do not divide. *)
Theorem shuffle_not_uniform (Ω : list rnd) (u0 : rnd) (bits k : nat)
    (a b c : Participant) :
  length Ω = 2 ^ bits →
  a ≠ b → a ≠ c → b ≠ c →
  ¬ (∀ o1 o2, o1 ≡ₚ [a; b; c] → o2 ≡ₚ [a; b; c] →
       outcomeCount Ω u0 k [a; b; c] o1 = outcomeCount Ω u0 k [a; b; c] o2).
Proof using sort_ok.
  intros HΩ Hab Hac Hbc Huniform.
  set (ps := [a; b; c]) in *.
  set (f := λ s : list rnd, fst (shuffle (streamOf u0 s) ps 0)).
  pose proof (count_by_class f (permutations ps) (sequences Ω k)
                (permutations3_NoDup a b c Hab Hac Hbc)) as Hsum.
  rewrite (filter_all (λ s, f s ∈ permutations ps)) in Hsum.
  2:{ intros s _. apply permutations_Permutation. symmetry. apply sort_ok. }
  rewrite length_sequences, HΩ, <- Nat.pow_mul_r in Hsum.
  assert (∀ o, o ∈ permutations ps →
               length (filter (λ s, f s = o) (sequences Ω k))
               = outcomeCount Ω u0 k ps ps) as Hsame.
  { intros o Ho. apply (Huniform o ps); [|done].
    symmetry. by apply permutations_Permutation. }
  rewrite (sum_list_fmap_same (outcomeCount Ω u0 k ps ps)) in Hsum.
  2:{ apply Forall_forall. intros o Ho. by apply Hsame. }
  apply (pow2_not_mul3 (bits * k) (2 * outcomeCount Ω u0 k ps ps)).
  rewrite <- Hsum. cbn. lia.
Qed.
End Shuffle.

(** ** The reference engine meets the interface's assumptions *)

Module ReferenceFacts.
Import Reference.

Lemma insertInto_permutes {A} (cmp : nat → A → A → comparison) (x : A) (l : list A)
    (n : nat) :
  fst (insertInto cmp x l n) ≡ₚ x :: l.
Proof.
  revert n. induction l as [|y l IH]; intros n; simpl; [done|].
  destruct (cmp n x y); simpl; rewrite ?IH; try done; apply Permutation_swap.
Qed.

Lemma insertionSort_permutes {A} (cmp : nat → A → A → comparison) (l : list A) :
  fst (insertionSort cmp l) ≡ₚ l.
Proof.
  induction l as [|x l IH]; simpl; [done|]. by rewrite insertInto_permutes, IH.
Qed.

Lemma engine_sort_permutes : sort_permutes engine.
Proof. intros A cmp l. apply insertionSort_permutes. Qed.

Lemma engine_random_index_in_range : random_index_in_range engine.
Proof.
  intros u n Hn. simpl in *. unfold ref_floor_times.
  assert (u mod two53 < two53)%N as Hu by (by apply N.mod_lt).
  assert ((u mod two53) * N.of_nat n / two53 < N.of_nat n)%N as Hlt.
  { apply N.Div0.div_lt_upper_bound. nia. }
  lia.
Qed.

(** The spec's scenarios, run on the reference engine. *)

Example import_with_dedupe :
  (λ w, name <$> participants (appState w))
    <$> run (E := engine) countingRandom [TypeText sampleText; ClickAdd] initialWorld
  = Some [alice; bob].
Proof. vm_compute. reflexivity. Qed.

Example groups_of_two :
  (λ w, length <$> groups (appState w))
    <$> handleGrouping (E := engine) countingRandom 6
          (appState (worldOf [pA; pB; pC; pD; pE] 2)) (worldOf [pA; pB; pC; pD; pE] 2)
  = Some [2; 2; 1].
Proof. vm_compute. reflexivity. Qed.

(** Typing [-5] into the group size input and generating: the handler does
    not complete. *)
Example negative_size_reachable :
  (λ w, (groupSize (appState w), name <$> participants (appState w)))
    <$> run (E := engine) countingRandom
          [TypeText alice; ClickAdd; SelectTab tab_group; ExitComplete;
           ChangeGroupSize (Some (-5)%Z)] initialWorld
  = Some ((-5)%Z, [alice])
  ∧ run (E := engine) countingRandom
        [TypeText alice; ClickAdd; SelectTab tab_group; ExitComplete;
         ChangeGroupSize (Some (-5)%Z); ClickGenerate] initialWorld
    = None.
Proof. split; vm_compute; reflexivity. Qed.

Example trim_strips_both_ends :
  trim ([32; 9; 160]%N ++ alice ++ [32]%N ++ bob ++ [13; 10; 8232; 65279]%N)
  = alice ++ [32]%N ++ bob.
Proof. vm_compute. reflexivity. Qed.

(** The list is cleared while the draw runs: the 40th tick still commits the
    participant its closure captured. *)
Example draw_outlives_clear :
  (λ w, (participants (appState w), name <$> drawHistory (appState w)))
    <$> run (E := engine) countingRandom
          ([TypeText alice; ClickAdd; SelectTab tab_draw; ExitComplete; ClickDraw]
           ++ replicate 39 (TimerFires 0)
           ++ [SelectTab tab_source; ExitComplete; ClickClearAll; TimerFires 0])
          initialWorld
  = Some ([], [alice]).
Proof. vm_compute. reflexivity. Qed.

(** Two clicks on the Draw button of the leaving draw panel, and both
    reveals run to their 40th tick: with repeats off, the history holds
    Alice's id twice. *)
Example two_reveals_commit_twice :
  (λ w, (id <$> drawHistory (appState w), allowRepeat (appState w),
         id <$> participants (appState w)))
    <$> run (E := engine) countingRandom
          (leavingDrawEvents ++ [ClickDraw; ClickDraw]
           ++ replicate 40 (TimerFires 0) ++ replicate 40 (TimerFires 1))
          initialWorld
  = Some ([[105]; [105]]%N, false, [[105]]%N).
Proof. vm_compute. reflexivity. Qed.

(** The same two clicks once the draw panel is back on the page as the
    current state renders it: the second one finds the button disabled. *)
Example second_click_disabled_when_settled :
  activeTimers
    <$> run (E := engine) countingRandom
          [TypeText alice; ClickAdd; SelectTab tab_draw; ExitComplete; ClickDraw; ClickDraw]
          initialWorld
  = Some 1.
Proof. vm_compute. reflexivity. Qed.

(** The six orders of three participants over the eight outcomes of three
    comparator calls, each negative or not. *)
Example insertion_sort_shares :
  (outcomeCount (E := engine) [0%N; half] 0%N 3 [pA; pB; pC])
    <$> [[pA; pB; pC]; [pA; pC; pB]; [pB; pA; pC]; [pB; pC; pA]; [pC; pA; pB]; [pC; pB; pA]]
  = [2; 2; 1; 1; 1; 1].
Proof. vm_compute. reflexivity. Qed.

End ReferenceFacts.

(** ** The statements at concrete inputs *)

Module Instances.
Import Reference ReferenceFacts.

(** Three participants, two equally likely values, three comparator calls. *)
Lemma shuffle_not_uniform_at_three :
  ¬ (∀ o1 o2, o1 ≡ₚ [pA; pB; pC] → o2 ≡ₚ [pA; pB; pC] →
       outcomeCount (E := engine) [0%N; half] 0%N 3 [pA; pB; pC] o1
       = outcomeCount (E := engine) [0%N; half] 0%N 3 [pA; pB; pC] o2).
Proof.
  apply (shuffle_not_uniform (E := engine) engine_sort_permutes [0%N; half] 0%N 1 3 pA pB pC);
    [reflexivity|discriminate..].
Defined.

(** One participant and a group size of -5. *)
Lemma handleGrouping_minus_five :
  participants (appState (worldOf [pA] (-5))) ≠ []
  ∧ (groupSize (appState (worldOf [pA] (-5))) < 1)%Z
  ∧ handleGrouping (E := engine) countingRandom 1000
      (appState (worldOf [pA] (-5))) (worldOf [pA] (-5)) = None.
Proof.
  split; [discriminate|]. split; [reflexivity|].
  apply (handleGrouping_size_below_one (E := engine) countingRandom engine_sort_permutes);
    [discriminate|reflexivity].
Defined.

(** The two clicks on the leaving draw panel, on the reference engine. *)
Lemma second_reveal_on_reference_engine :
  ∃ w, run (E := engine) countingRandom (leavingDrawEvents ++ [ClickDraw; ClickDraw])
           initialWorld = Some w
    ∧ activeTimers w = 2
    ∧ allowRepeat (appState w) = false.
Proof.
  destruct (draw_on_leaving_panel_starts_second_reveal (E := engine) countingRandom)
    as [_ (w0 & w1 & w2 & Hrun & _ & Hfirst & _ & _ & Hsecond & Htwo & _ & Hoff)].
  exists w2. split; [|by split].
  rewrite run_app, Hrun. simpl. rewrite Hfirst, Hsecond. reflexivity.
Defined.

(** C4, refuted as stated: two calls of [Math.random()] that return the same
    value give two participants the same id. *)
Lemma ids_collide :
  (λ w, participants (appState w))
    <$> run (E := engine) constantRandom [TypeText twoLines; ClickAdd] initialWorld
  = Some [mkParticipant [105]%N alice; mkParticipant [105]%N bob]
  ∧ ¬ NoDup (id <$> [mkParticipant [105]%N alice; mkParticipant [105]%N bob]).
Proof.
  split; [vm_compute; reflexivity|].
  intros Hnd. apply NoDup_cons in Hnd as [Hnin _]. apply Hnin. left.
Qed.

(** Two different values that agree on their first nine base-36 digits do
    the same. *)
Example ids_collide_on_nine_digits :
  countingRandom 1 ≠ countingRandom 2
  ∧ (λ w, id <$> participants (appState w))
      <$> run (E := engine) (λ i, countingRandom (S i)) [TypeText twoLines; ClickAdd]
            initialWorld
    = Some [[105; 48; 48; 48; 48; 48; 48; 48; 48]; [105; 48; 48; 48; 48; 48; 48; 48; 48]]%N.
Proof. split; [discriminate|vm_compute; reflexivity]. Qed.

(** The store after a run of imports, a deduplication and a removal. *)
Lemma store_invariant_at_import :
  ∃ w, run (E := engine) spreadRandom importEvents initialWorld = Some w
    ∧ Forall (λ p, name p ≠ [] ∧ trim (name p) = name p) (participants (appState w))
    ∧ (NoDup (idsIssued (E := engine) spreadRandom (cursor w)) →
       NoDup (id <$> participants (appState w))).
Proof.
  eexists. split; [vm_compute; reflexivity|].
  apply (store_invariant (E := engine) spreadRandom importEvents). vm_compute. reflexivity.
Defined.



(** The two clicks on the Add button of the leaving participants panel, on
    the reference engine. *)
Lemma add_twice_on_reference_engine :
  ∃ w, run (E := engine) countingRandom (leavingSourceEvents ++ [ClickAdd; ClickAdd])
           initialWorld = Some w
    ∧ name <$> participants (appState w) = [alice; alice]
    ∧ autoDeduplicate (appState w) = true.
Proof.
  destruct (add_on_leaving_panel_repeats_name (E := engine) countingRandom)
    as [_ (w1 & w2 & Hrun & _ & Hon & _ & Hsecond & Hnames & _)].
  exists w2. split; [|split; [exact Hnames|]].
  - change (leavingSourceEvents ++ [ClickAdd; ClickAdd])
      with ((leavingSourceEvents ++ [ClickAdd]) ++ [ClickAdd]).
    rewrite run_app, Hrun. simpl. by rewrite Hsecond.
  - assert (autoDeduplicate (appState w2) = autoDeduplicate (appState w1)) as ->; [|done].
    revert Hsecond. unfold dispatch. simpl. case_decide; by intros [= <-].
Defined.


End Instances.

(** * Further properties of the code *)

(** ** The store: removal, deduplication, imports *)


(** X1. The delete button of a row removes exactly the entries with that id:
    the others stay, in order; clicking again, or for an id the list does not
    hold, changes nothing; no other cell changes (the history keeps a winner
    who is removed). *)
Theorem removeParticipant_exact (pid : jsstring) (st : AppState) :
  (∀ p, p ∈ participants (removeParticipant pid st) ↔ p ∈ participants st ∧ id p ≠ pid)
  ∧ participants (removeParticipant pid st) `sublist_of` participants st
  ∧ removeParticipant pid (removeParticipant pid st) = removeParticipant pid st
  ∧ (pid ∉ id <$> participants st → removeParticipant pid st = st)
  ∧ drawHistory (removeParticipant pid st) = drawHistory st
  ∧ groups (removeParticipant pid st) = groups st
  ∧ currentWinner (removeParticipant pid st) = currentWinner st.
Proof.
  split_and!; try done.
  - intros p. simpl. rewrite list_elem_of_filter. naive_solver.
  - simpl. apply sublist_filter.
  - unfold removeParticipant, setParticipants. simpl. f_equal.
    apply filter_all. by intros p [? _]%list_elem_of_filter.
  - intros Hnot. destruct st. unfold removeParticipant, setParticipants. simpl in *.
    f_equal. apply filter_all. intros p Hp <-. apply Hnot. by apply list_elem_of_fmap_2.
Qed.


Lemma split_blank (sep : N) (s : jsstring) :
  blankText s → Forall blankText (split sep s).
Proof.
  unfold blankText. induction 1 as [|c s Hc Hs IH]; simpl.
  - by repeat constructor.
  - destruct (c =? sep)%N; [by repeat constructor|].
    destruct (split sep s) as [|w ws]; [by repeat constructor|].
    apply Forall_cons in IH as [Hw Hws]. by repeat constructor.
Qed.

Lemma trim_blank (s : jsstring) : blankText s → trim s = [].
Proof.
  intros Hs. unfold trim.
  assert (trimStart s = []) as ->; [|done].
  induction Hs as [|c s Hc _ IH]; simpl; [done|]. by rewrite Hc.
Qed.

Section StoreExtras.
Context {E : Engine}.
Variable random : nat → rnd.

(** X3. With auto-deduplicate off, the add button appends one entry for
    every non-blank line of the text, trimmed, in order, repeats and names
    the list already holds included; it draws one random value per entry,
    empties the text box and leaves every other cell.  The text and the
    switch are those of the handler's render. *)
Theorem handleAddFromText_keeps_repeats (render : AppState) (w : World) :
  autoDeduplicate render = false →
  let w' := handleAddFromText random render w in
  name <$> participants (appState w')
  = (name <$> participants (appState w)) ++ namesOfText (inputText render)
  ∧ participants (appState w) `prefix_of` participants (appState w')
  ∧ inputText (appState w') = []
  ∧ cursor w' = cursor w + length (namesOfText (inputText render))
  ∧ drawHistory (appState w') = drawHistory (appState w)
  ∧ groups (appState w') = groups (appState w)
  ∧ timers w' = timers w.
Proof.
  intros Hoff. simpl. unfold handleAddFromText, addNames. rewrite Hoff. simpl.
  pose proof (newParticipantsFrom_spec random (namesOfText (inputText render))
                (cursor w)) as (Hnames & _ & Hpos).
  split_and!; try done.
  - by rewrite fmap_app, Hnames.
  - by apply prefix_app_r.
Qed.

(** X4. A text of nothing but spaces, tabs and line breaks adds nobody: the
    list stays as it is and no random value is drawn; only the text box is
    emptied. *)
Theorem handleAddFromText_blank (render : AppState) (w : World) :
  blankText (inputText render) →
  handleAddFromText random render w = withApp (setInputText []) w.
Proof.
  intros Hblank. unfold handleAddFromText, addNames.
  assert (namesOfText (inputText render) = []) as ->.
  { unfold namesOfText. pose proof (split_blank LF _ Hblank) as Hparts.
    induction Hparts as [|part parts Hpart _ IH]; [done|].
    rewrite fmap_cons, filter_cons, (trim_blank part Hpart).
    rewrite decide_False by done. apply IH. }
  simpl. destruct w as [st ts us pos ex], st. unfold withApp, setInputText, setParticipants.
  simpl. destruct (autoDeduplicate render); by rewrite app_nil_r.
Qed.

Lemma NoDup_names_append (old added : list Participant) :
  NoDup (name <$> old) → NoDup (name <$> added) →
  (∀ p, p ∈ added → name p ∉ name <$> old) →
  NoDup (name <$> old ++ added).
Proof.
  intros Hold Hadded Hfresh. rewrite fmap_app. apply NoDup_app. split_and!; [done| |done].
  intros n Hn (p & -> & Hp)%list_elem_of_fmap. by apply (Hfresh p).
Qed.

(** X5. With auto-deduplicate on, [handleAddFromText] compares the names of
    the text with the list its render saw: it appends to the end of the list
    it finds, in input order, one entry for each name of the text that the
    render's list did not hold, so no added name was in the render's list and
    no two added names are equal.  The names of the list stay pairwise
    different if they were and the render's list held each of them, as it
    does when the render is of the state the handler runs in. *)
Theorem handleAddFromText_keeps_names_distinct (render : AppState) (w : World) :
  autoDeduplicate render = true →
  let old := participants (appState w) in
  let seen := participants render in
  let names := namesOfText (inputText render) in
  let w' := handleAddFromText random render w in
  ∃ added, participants (appState w') = old ++ added
    ∧ (∀ p, p ∈ added → name p ∉ name <$> seen)
    ∧ NoDup (name <$> added)
    ∧ (name <$> added) `sublist_of` names
    ∧ (∀ n, n ∈ names → n ∉ name <$> seen → n ∈ name <$> added)
    ∧ Forall (λ p, goodName (name p)) added
    ∧ (NoDup (name <$> old) → (∀ n, n ∈ name <$> old → n ∈ name <$> seen) →
       NoDup (name <$> participants (appState w')))
    ∧ (render = appState w → NoDup (name <$> old) →
       NoDup (name <$> participants (appState w'))).
Proof.
  intros Hon. simpl.
  set (names := namesOfText (inputText render)).
  destruct (addNames_participants random names true (participants render) w)
    as (added & Hps & Hadded & _).
  pose proof (newParticipantsFrom_spec random names (cursor w)) as (Hnames & _ & _).
  set (fresh := fst (newParticipantsFrom random names (cursor w))) in *.
  assert (participants (appState (handleAddFromText random render w))
          = participants (appState w) ++ added) as Hps'.
  { unfold handleAddFromText. fold names. by rewrite Hon. }
  assert (∀ p, p ∈ added → name p ∉ name <$> participants render) as Hfresh.
  { intros p Hp Hold. subst added.
    assert (name p ∈ name <$> filterNew (nameSet (participants render)) fresh) as Hin
      by by apply list_elem_of_fmap_2.
    apply filterNew_names in Hin as [_ Hnot]. apply Hnot.
    by apply elem_of_list_to_set. }
  assert (NoDup (name <$> added)) as Hnd by (subst added; apply filterNew_NoDup).
  assert (NoDup (name <$> participants (appState w)) →
          (∀ n, n ∈ name <$> participants (appState w) → n ∈ name <$> participants render) →
          NoDup (name <$> participants (appState (handleAddFromText random render w))))
    as Hkeep.
  { intros Hold Hcover. rewrite Hps'. apply NoDup_names_append; [done..|].
    intros p Hp Hcur. apply (Hfresh p Hp). by apply Hcover. }
  exists added. split_and!; try done.
  - subst added. rewrite <- Hnames. apply fmap_sublist, filterNew_sublist.
  - intros n Hn Hold. subst added. apply filterNew_names. split.
    + by rewrite Hnames.
    + unfold nameSet. by rewrite elem_of_list_to_set.
  - subst added. apply Forall_forall. intros p Hp.
    pose proof (namesOfText_good (inputText render)) as Hgood.
    rewrite Forall_forall in Hgood. apply Hgood. fold names. rewrite <- Hnames.
    apply list_elem_of_fmap_2. eapply elem_of_sublist; [exact Hp|apply filterNew_sublist].
  - intros -> Hold. by apply Hkeep.
Qed.

(** X6. When the parse of a chosen file completes, with auto-deduplicate on
    at the time the file was chosen, the names of the file are compared with
    the list as it was at that time, not as it is now: every name of the file
    that the earlier list did not hold is appended once, to the end of the
    present list, even if the present list holds it; the names stay pairwise
    different if the earlier list held every name the present one holds. *)
Theorem uploadComplete_dedupes_against_snapshot (k : nat) (data : list (list jsstring))
    (u : Upload) (w : World) :
  uploads w !! k = Some (Some u) →
  u_autoDeduplicate u = true →
  let w' := uploadComplete random k data w in
  ∃ added,
    participants (appState w') = participants (appState w) ++ added
    ∧ (∀ p, p ∈ added → name p ∉ name <$> u_participants u)
    ∧ NoDup (name <$> added)
    ∧ (name <$> added) `sublist_of` namesOfRows data
    ∧ (∀ n, n ∈ namesOfRows data → n ∉ name <$> u_participants u → n ∈ name <$> added)
    ∧ uploads w' !! k = Some None
    ∧ (NoDup (name <$> participants (appState w)) →
       (∀ n, n ∈ name <$> participants (appState w) → n ∈ name <$> u_participants u) →
       NoDup (name <$> participants (appState w'))).
Proof.
  intros Hk Hon. simpl. unfold uploadComplete. rewrite Hk. unfold addNames. rewrite Hon.
  simpl.
  pose proof (newParticipantsFrom_spec random (namesOfRows data) (cursor w))
    as (Hnames & _ & _).
  set (fresh := fst (newParticipantsFrom random (namesOfRows data) (cursor w))) in *.
  assert (∀ p, p ∈ filterNew (nameSet (u_participants u)) fresh →
               name p ∉ name <$> u_participants u) as Hfresh.
  { intros p Hp Hold.
    assert (name p ∈ name <$> filterNew (nameSet (u_participants u)) fresh) as Hin
      by by apply list_elem_of_fmap_2.
    apply filterNew_names in Hin as [_ Hnot]. apply Hnot. by apply elem_of_list_to_set. }
  eexists. split; [reflexivity|]. split_and!.
  - exact Hfresh.
  - apply filterNew_NoDup.
  - rewrite <- Hnames. apply fmap_sublist, filterNew_sublist.
  - intros n Hn Hold. apply filterNew_names. split; [by rewrite Hnames|].
    unfold nameSet. by rewrite elem_of_list_to_set.
  - apply list_lookup_insert_eq. by eapply lookup_lt_Some.
  - intros Hnd Hcover. apply NoDup_names_append; [done|apply filterNew_NoDup|].
    intros p Hp Hcur. apply (Hfresh p Hp). by apply Hcover.
Qed.
End StoreExtras.

(** ** The draw: the reveal, the committed value, winners without repeats *)

Section DrawExtras.
Context {E : Engine}.
Variable random : nat → rnd.

(** Uninterrupted ticks below [steps], with what they show and consume. *)
Lemma run_ticks_display (k : nat) (A : list Participant) (n : nat) :
  ∀ (w : World) (c : nat),
    timers w !! k = Some (Some (mkTimer A c)) → c + n < steps →
    ∃ w1, run random (replicate n (TimerFires k)) w = Some w1
      ∧ timers w1 !! k = Some (Some (mkTimer A (c + n)))
      ∧ cursor w1 = cursor w + n
      ∧ drawHistory (appState w1) = drawHistory (appState w)
      ∧ isDrawing (appState w1) = isDrawing (appState w)
      ∧ participants (appState w1) = participants (appState w)
      ∧ groups (appState w1) = groups (appState w)
      ∧ currentWinner (appState w1)
        = match n with
          | 0 => currentWinner (appState w)
          | S m => A !! floor_times (random (cursor w + m)) (length A)
          end.
Proof.
  induction n as [|n IH]; intros w c Hk Hc; simpl.
  - exists w. rewrite !Nat.add_0_r. by split_and!.
  - unfold dispatch at 1. simpl.
    rewrite (timerCallback_running random k w A c Hk) by lia.
    match goal with |- ∃ _, run _ _ ?w' = _ ∧ _ => set (w2 := w') end.
    destruct (IH w2 (S c)) as (w1 & -> & Hk1 & Hpos & Hh & Hd & Hp & Hg & Hshow); [|lia|].
    + simpl. apply list_lookup_insert_eq. by eapply lookup_lt_Some.
    + exists w1. subst w2. simpl in *. rewrite <- Nat.add_succ_comm.
      split_and!; try done; [lia|].
      rewrite Hshow. destruct n as [|n]; [by rewrite Nat.add_0_r|].
      do 3 f_equal. lia.
Qed.

(** X7. During the reveal, after each of the first 39 ticks, the display
    shows a member of the eligible list captured at the start, the draw is
    marked in progress, and the history, the participant list and the groups
    are as they were. *)
Theorem reveal_shows_eligible (render : AppState) (w : World) (n : nat) :
  random_index_in_range E →
  availableParticipants render ≠ [] →
  0 < n < steps →
  ∃ p w1,
    run random (replicate n (TimerFires (length (timers w)))) (startDraw render w) = Some w1
    ∧ p ∈ availableParticipants render
    ∧ currentWinner (appState w1) = Some p
    ∧ isDrawing (appState w1) = true
    ∧ drawHistory (appState w1) = drawHistory (appState w)
    ∧ participants (appState w1) = participants (appState w)
    ∧ groups (appState w1) = groups (appState w).
Proof.
  intros Hidx HA Hn. set (A := availableParticipants render) in *.
  destruct (startDraw_registers render w HA) as [Hk _]. fold A in Hk.
  destruct n as [|n]; [lia|].
  destruct (run_ticks_display (length (timers w)) A (S n) (startDraw render w) 0 Hk)
    as (w1 & Hrun & _ & _ & Hh & Hd & Hp & Hg & Hshow); [lia|].
  assert (0 < length A) as Hlen by (destruct A; [done|simpl; lia]).
  destruct (lookup_lt_is_Some_2 A
              (floor_times (random (cursor (startDraw render w) + n)) (length A)))
    as [p Hlook]; [by apply Hidx|].
  assert (isDrawing (appState (startDraw render w)) = true
          ∧ drawHistory (appState (startDraw render w)) = drawHistory (appState w)
          ∧ participants (appState (startDraw render w)) = participants (appState w)
          ∧ groups (appState (startDraw render w)) = groups (appState w))
    as (Hd0 & Hh0 & Hp0 & Hg0).
  { unfold startDraw. fold A. by destruct (Nat.eqb_spec (length A) 0) as [Hz|_]; [lia|]. }
  exists p, w1. split; [exact Hrun|]. split; [by eapply list_elem_of_lookup_2|].
  rewrite Hshow, Hlook, Hd, Hh, Hp, Hg. by split_and!.
Qed.

(** X8. A draw run to its 40th tick makes 41 calls of [Math.random()]: one
    per tick for the display and one more on the last tick, and that last
    call alone picks the committed winner, as the element of the captured
    list at [Math.floor] of it times the length; what the 40th tick showed
    first came from the call before. *)
Theorem commit_is_last_call (render : AppState) (w : World) :
  random_index_in_range E →
  availableParticipants render ≠ [] →
  let A := availableParticipants render in
  ∃ winner w',
    run random (replicate steps (TimerFires (length (timers w)))) (startDraw render w)
    = Some w'
    ∧ A !! floor_times (random (cursor w + steps)) (length A) = Some winner
    ∧ drawHistory (appState w') = winner :: drawHistory (appState w)
    ∧ currentWinner (appState w') = Some winner
    ∧ cursor w' = cursor w + steps + 1.
Proof.
  intros Hidx HA A. destruct (startDraw_registers render w HA) as [Hk Hh0].
  fold A in Hk.
  destruct (run_ticks_display (length (timers w)) A (steps - 1) (startDraw render w) 0 Hk)
    as (w1 & Hrun & Hk1 & Hpos & Hh & _).
  { rewrite steps_eq. lia. }
  destruct (timerCallback_commit random (length (timers w)) w1 A (steps - 1) Hidx HA Hk1)
    as (winner & Hin & Hcb).
  { rewrite steps_eq. lia. }
  assert (cursor (startDraw render w) = cursor w) as Hc0.
  { unfold startDraw. by destruct (length _ =? 0). }
  assert (A !! floor_times (random (S (cursor w1))) (length A) = Some winner) as Hlook.
  { unfold timerCallback in Hcb. rewrite Hk1 in Hcb. cbn [t_available t_counter] in Hcb.
    destruct (Nat.leb_spec steps (S (steps - 1))) as [_|Hlt];
      [|rewrite steps_eq in Hlt; lia].
    destruct (A !! floor_times (random (S (cursor w1))) (length A)) as [x|]; [|done].
    injection Hcb as Hcb. by rewrite Hcb. }
  exists winner. eexists. split_and!.
  - replace steps with (S (steps - 1)) at 1 by (rewrite steps_eq; lia).
    rewrite replicate_S_end, run_app, Hrun. simpl. unfold dispatch. simpl.
    rewrite Hcb. reflexivity.
  - replace (S (cursor w1)) with (cursor w + steps) in Hlook
      by (rewrite Hpos, Hc0, steps_eq; lia).
    exact Hlook.
  - simpl. by rewrite Hh, Hh0.
  - done.
  - simpl. rewrite Hpos, Hc0, steps_eq. lia.
Qed.

(** X9. With repeats off and nobody of the list left outside the history,
    or with an empty list, nobody is eligible: [startDraw] returns at once,
    and a click on the draw button of a panel so rendered changes nothing. *)
Theorem draw_on_exhausted_pool (render : AppState) (w : World) :
  allowRepeat render = false →
  (∀ p, p ∈ participants render → id p ∈ id <$> drawHistory render) →
  availableParticipants render = []
  ∧ (snd (shown w) = render → dispatch random ClickDraw w = Some w)
  ∧ handle random ClickDraw render w = Some w
  ∧ startDraw render w = w.
Proof.
  intros Hoff Hall.
  assert (availableParticipants render = []) as Hnone.
  { unfold availableParticipants. rewrite Hoff.
    induction (participants render) as [|p ps IH]; [done|].
    rewrite filter_cons.
    destruct (decide (inHistory (drawHistory render) p = false)) as [Hf|_].
    - exfalso. unfold inHistory in Hf. apply bool_decide_eq_false in Hf.
      apply Hf, Hall. left.
    - apply IH. intros q Hq. apply Hall. by right. }
  assert (handle random ClickDraw render w = Some w) as Hclick.
  { simpl. unfold drawDisabled. rewrite Hnone. simpl. by rewrite orb_true_r. }
  split_and!; [done| |done|].
  - intros Hshown. unfold dispatch. simpl. rewrite Hshown. by case_decide.
  - unfold startDraw. by rewrite Hnone.
Qed.

Lemma two_active_timers (w : World) (j k : nat) (t t' : Timer) :
  timers w !! k = Some (Some t) → timers w !! j = Some (Some t') → j ≠ k →
  2 ≤ activeTimers w.
Proof.
  intros Hk Hj Hne. pose proof (activeTimers_insert w k t None Hk) as Hins.
  assert (Some t' ∈ filter (λ t : option Timer, is_Some t) (<[k := None]> (timers w)))
    as Hin.
  { apply list_elem_of_filter. split; [done|].
    apply (list_elem_of_lookup_2 _ j). by rewrite list_lookup_insert_ne. }
  destruct (filter _ (<[k := None]> (timers w))); [by apply not_elem_of_nil in Hin|].
  simpl in Hins. lia.
Qed.

Lemma handle_frame_history (e : Event) (render : AppState) (w w' : World) :
  handle random e render w = Some w' →
  e ≠ ClickDraw → (∀ k, e ≠ TimerFires k) → e ≠ ClickClearHistory →
  e ≠ ClickClearAll → e ≠ ToggleAllowRepeat →
  timers w' = timers w
  ∧ drawHistory (appState w') = drawHistory (appState w)
  ∧ allowRepeat (appState w') = allowRepeat (appState w).
Proof.
  intros Hd Hdraw Htimer Hch Hca Htog.
  destruct e; simpl in Hd; try (injection Hd as <-); try done.
  - unfold uploadComplete. by destruct (uploads w !! k) as [[u|]|].
  - by destruct (listButtonsDisabled render).
  - by case_decide.
  - by specialize (Htimer k).
  - destruct (listButtonsDisabled render); [by injection Hd as <-|].
    unfold handleGrouping in Hd.
    destruct (length (participants render) =? 0); [by injection Hd as <-|].
    destruct (chunkLoop _ _ _ _ _); [by injection Hd as <-|done].
Qed.

Lemma handle_noRepeat (e : Event) (w w' : World) :
  handle random e (appState w) w = Some w' → e ≠ ToggleAllowRepeat →
  drawInv w → noRepeatInv w → noRepeatInv w'.
Proof.
  intros Hd Htog Hone (Hoff & Hnd & Hsafe). unfold noRepeatInv.
  destruct (decide (e = ClickDraw)) as [->|Hdraw].
  { simpl in Hd. injection Hd as <-.
    destruct (drawDisabled (appState w)); [done|]. unfold startDraw.
    destruct (length (availableParticipants (appState w)) =? 0); [done|]. simpl.
    split_and!; try done. intros k t p [Hk|[_ Hk]]%lookup_app_Some Hp; [by eapply Hsafe|].
    destruct (k - length (timers w)) as [|?]; [|done]. simpl in Hk.
    injection Hk as <-. simpl in Hp. unfold availableParticipants in Hp.
    rewrite Hoff in Hp. apply list_elem_of_filter in Hp as [Hp _].
    unfold inHistory in Hp. by apply bool_decide_eq_false in Hp. }
  destruct (decide (e = ClickClearHistory)) as [->|Hch].
  { simpl in Hd. injection Hd as <-. simpl. split_and!; [done|constructor|].
    intros k t p _ _. apply not_elem_of_nil. }
  destruct (decide (e = ClickClearAll)) as [->|Hca].
  { simpl in Hd. injection Hd as <-.
    destruct (listButtonsDisabled (appState w)); [done|]. simpl.
    split_and!; [done|constructor|]. intros k t p _ _. apply not_elem_of_nil. }
  destruct e; try by (destruct (handle_frame_history _ _ _ _ Hd) as (-> & -> & ->)).
  simpl in Hd. unfold timerCallback in Hd.
  destruct (timers w !! k) as [[t|]|] eqn:Hk; [|by injection Hd as <-..].
  destruct (steps <=? S (t_counter t)).
  - destruct (t_available t !! _) as [winner|] eqn:Hw; [|done]. injection Hd as <-.
    simpl. split_and!; [done| |].
    + constructor; [|done]. apply (Hsafe k t winner Hk). by eapply list_elem_of_lookup_2.
    + intros j t' p Hj Hp. exfalso.
      assert (j ≠ k) as Hne.
      { intros ->. rewrite list_lookup_insert_eq in Hj by (by eapply lookup_lt_Some). done. }
      rewrite list_lookup_insert_ne in Hj by done.
      pose proof (two_active_timers w j k t t' Hk Hj Hne) as Htwo.
      unfold drawInv in Hone. destruct (isDrawing (appState w)); lia.
  - injection Hd as <-. simpl. split_and!; [done..|].
    intros j t' p Hj Hp. destruct (decide (j = k)) as [->|Hne].
    + rewrite list_lookup_insert_eq in Hj by (by eapply lookup_lt_Some).
      injection Hj as <-. simpl in Hp. by eapply Hsafe.
    + rewrite list_lookup_insert_ne in Hj by done. by eapply Hsafe.
Qed.

Lemma run_noRepeat (evs : list Event) (w w' : World) :
  settledRun random evs w = true →
  run random evs w = Some w' → ToggleAllowRepeat ∉ evs →
  drawInv w → noRepeatInv w → drawInv w' ∧ noRepeatInv w'.
Proof.
  revert w. induction evs as [|e evs IH]; intros w Hs Hrun Htog Hone Hinv; simpl in Hrun.
  - by injection Hrun as <-.
  - apply not_elem_of_cons in Htog as [Hne Htog].
    destruct (dispatch random e w) as [w1|] eqn:Hd; [|done].
    destruct (settledRun_cons random e evs w w1 Hs Hd) as [Hlive Hs1].
    destruct (dispatch_settled random e w w1 Hlive Hd) as [->|Hh]; [by apply (IH w)|].
    apply (IH w1 Hs1 Hrun Htog).
    + by eapply handle_drawInv.
    + by eapply handle_noRepeat.
Qed.

(** X10. In a run in which no element of a tab panel is used while the
    panel animates out, at most one reveal is running, exactly when the
    in-progress flag is set; and if, besides, Allow Repeated Winners is never
    switched on, the draw history never holds the same id twice: every draw
    commits somebody whose id the history does not hold, whatever is added,
    removed, cleared or grouped in between. *)
Theorem winners_never_repeat (evs : list Event) (w : World) :
  settledRun random evs initialWorld = true →
  run random evs initialWorld = Some w →
  activeTimers w = (if isDrawing (appState w) then 1 else 0)
  ∧ (ToggleAllowRepeat ∉ evs → NoDup (id <$> drawHistory (appState w))).
Proof.
  intros Hs Hrun. split.
  - by apply (run_drawInv random evs initialWorld w Hs Hrun).
  - intros Htog.
    destruct (run_noRepeat evs initialWorld w Hs Hrun Htog) as [_ (_ & Hnd & _)];
      [done| |done].
    split_and!; [done|constructor|]. intros k t p Hk. simpl in Hk.
    by rewrite lookup_nil in Hk.
Qed.
End DrawExtras.

(** ** Grouping and export *)

Lemma chunks_count {A} (gs : list (list A)) (size : Z) :
  (0 < size)%Z →
  allButLast (λ g, Z.of_nat (length g) = size) gs →
  Forall (λ g, g ≠ [] ∧ (Z.of_nat (length g) ≤ size)%Z) gs →
  Z.of_nat (length gs) = ((Z.of_nat (length (concat gs)) + size - 1) / size)%Z.
Proof.
  intros Hsize. induction gs as [|g gs IH]; intros Hfull Hsmall.
  - simpl. symmetry. apply Z.div_small. lia.
  - apply Forall_cons in Hsmall as [[Hne Hle] Hsmall].
    assert (0 < length g) as Hpos by (destruct g; [done|simpl; lia]).
    destruct gs as [|g' gs].
    + simpl. rewrite app_nil_r. change (Z.of_nat 1) with 1%Z.
      apply (Z.div_unique_pos _ _ 1 (Z.of_nat (length g) - 1)); lia.
    + assert (Z.of_nat (length g) = size) as Hg.
      { apply (Hfull 0 g); [done|simpl; lia]. }
      assert (allButLast (λ g, Z.of_nat (length g) = size) (g' :: gs)) as Htail.
      { intros j x Hj Hlast. apply (Hfull (S j) x); [done|simpl in *; lia]. }
      specialize (IH Htail Hsmall).
      change (concat (g :: g' :: gs)) with (g ++ concat (g' :: gs)).
      rewrite length_app, Nat2Z.inj_add, Hg.
      change (length (g :: g' :: gs)) with (S (length (g' :: gs))).
      rewrite Nat2Z.inj_succ, IH.
      replace (size + Z.of_nat (length (concat (g' :: gs))) + size - 1)%Z
        with (Z.of_nat (length (concat (g' :: gs))) + size - 1 + 1 * size)%Z by lia.
      rewrite Z.div_add by lia. lia.
Qed.

Lemma digitsOf_inj (d d' : Decimal.uint) : digitsOf d = digitsOf d' → d = d'.
Proof.
  revert d'. induction d; intros [] Heq; simpl in Heq; try discriminate;
    try (injection Heq as Heq; f_equal; by apply IHd); done.
Qed.

Lemma groupLabel_inj (i j : nat) : groupLabel i = groupLabel j → i = j.
Proof.
  unfold groupLabel, numberToString. intros Heq%app_inv_head%digitsOf_inj.
  apply DecimalNat.Unsigned.to_uint_inj in Heq. lia.
Qed.

Lemma csvData_names_from (lab : nat → jsstring) (gs : list (list Participant)) :
  Name <$> concat (imap (λ idx group, (λ p, mkRow (lab idx) (name p)) <$> group) gs)
  = name <$> concat gs.
Proof.
  revert lab. induction gs as [|g gs IH]; intros lab; [done|].
  rewrite imap_cons. simpl. rewrite !fmap_app. f_equal.
  - rewrite <- list_fmap_compose. by apply list_fmap_ext.
  - apply (IH (lab ∘ S)).
Qed.

Lemma csvData_lookup_from (lab : nat → jsstring) (gs : list (list Participant))
    (idx j : nat) (g : list Participant) (p : Participant) :
  gs !! idx = Some g → g !! j = Some p →
  concat (imap (λ idx group, (λ p, mkRow (lab idx) (name p)) <$> group) gs)
    !! (sum_list (length <$> take idx gs) + j)
  = Some (mkRow (lab idx) (name p)).
Proof.
  revert lab idx. induction gs as [|g0 gs IH]; intros lab idx Hg Hp; [done|].
  rewrite imap_cons. rewrite concat_cons. destruct idx as [|idx].
  - change (sum_list (length <$> take 0 (g0 :: gs)) + j) with j.
    injection Hg as ->. rewrite lookup_app_l.
    + by rewrite list_lookup_fmap, Hp.
    + rewrite length_fmap. by eapply lookup_lt_Some.
  - change (sum_list (length <$> take (S idx) (g0 :: gs)) + j)
      with (length g0 + sum_list (length <$> take idx gs) + j).
    rewrite lookup_app_r by (rewrite length_fmap; lia).
    rewrite length_fmap.
    replace (length g0 + sum_list (length <$> take idx gs) + j - length g0)
      with (sum_list (length <$> take idx gs) + j) by lia.
    exact (IH (lab ∘ S) idx Hg Hp).
Qed.

Lemma csvData_snoc_from (lab : nat → jsstring) (gs : list (list Participant))
    (g : list Participant) :
  concat (imap (λ idx group, (λ p, mkRow (lab idx) (name p)) <$> group) (gs ++ [g]))
  = concat (imap (λ idx group, (λ p, mkRow (lab idx) (name p)) <$> group) gs)
    ++ ((λ p, mkRow (lab (length gs)) (name p)) <$> g).
Proof.
  rewrite imap_app, concat_app. simpl. by rewrite app_nil_r, Nat.add_0_r.
Qed.

(** X11. The rows of the export: one row per member of each group, in the
    order of the groups and of their members, carrying the member's name and
    the label ["Group "] followed by the group's position counted from one.
    The row of the [j]-th member of the group at position [idx] stands at
    position [j] after the rows of the groups before, as many as those
    groups have members; a group added at the end adds its rows at the end;
    groups at different positions have different labels. *)
Theorem csvData_rows (gs : list (list Participant)) :
  length (csvData gs) = sum_list (length <$> gs)
  ∧ (∀ idx g j p, gs !! idx = Some g → g !! j = Some p →
       csvData gs !! (sum_list (length <$> take idx gs) + j)
       = Some (mkRow (groupLabel idx) (name p)))
  ∧ (∀ g, csvData (gs ++ [g])
          = csvData gs ++ ((λ p, mkRow (groupLabel (length gs)) (name p)) <$> g))
  ∧ Name <$> csvData gs = name <$> concat gs
  ∧ (∀ row, row ∈ csvData gs ↔
            ∃ idx g p, gs !! idx = Some g ∧ p ∈ g
                       ∧ row = mkRow (groupLabel idx) (name p))
  ∧ (∀ i j, groupLabel i = groupLabel j → i = j).
Proof.
  pose proof (csvData_names_from groupLabel gs : Name <$> csvData gs = name <$> concat gs)
    as Hnames.
  split_and!.
  - by rewrite length_concat_sum, <- (length_fmap name), <- Hnames, length_fmap.
  - intros idx g j p. apply csvData_lookup_from.
  - intros g. apply csvData_snoc_from.
  - exact Hnames.
  - intros row. unfold csvData. rewrite list_elem_of_In, in_concat. split.
    + intros (rows & Hrows%list_elem_of_In & Hrow%list_elem_of_In).
      apply elem_of_lookup_imap in Hrows as (idx & g & -> & Hg).
      apply list_elem_of_fmap in Hrow as (p & -> & Hp). by exists idx, g, p.
    + intros (idx & g & p & Hg & Hp & ->).
      exists ((λ p, mkRow (groupLabel idx) (name p)) <$> g). split.
      * apply list_elem_of_In. apply elem_of_lookup_imap. by exists idx, g.
      * apply list_elem_of_In.
        by apply (list_elem_of_fmap_2 (λ p, mkRow (groupLabel idx) (name p))).
  - apply groupLabel_inj.
Qed.

Section GroupingExtras.
Context {E : Engine}.
Variable random : nat → rnd.
Hypothesis sort_ok : sort_permutes E.

(** X12. For a non-empty list of P participants and a group size S of at
    least one, [handleGrouping] makes the quotient of P + S - 1 by S groups
    (P / S rounded up); when S is at least P there is one group, with
    everybody in it. *)
Theorem handleGrouping_count (render : AppState) (w : World) (fuel : nat) :
  participants render ≠ [] →
  (1 ≤ groupSize render)%Z →
  length (participants render) < fuel →
  ∃ w', handleGrouping random fuel render w = Some w'
    ∧ Z.of_nat (length (groups (appState w')))
      = ((Z.of_nat (length (participants render)) + groupSize render - 1)
         / groupSize render)%Z
    ∧ ((Z.of_nat (length (participants render)) ≤ groupSize render)%Z →
       ∃ g, groups (appState w') = [g] ∧ g ≡ₚ participants render).
Proof using sort_ok.
  intros Hne Hsize Hfuel. unfold handleGrouping.
  destruct (Nat.eqb_spec (length (participants render)) 0) as [Hz|Hnz].
  { by apply length_zero_iff_nil in Hz. }
  pose proof (shuffle_permutes random sort_ok (participants render) (cursor w)) as Hperm.
  set (shuffled := fst (shuffle random (participants render) (cursor w))) in *.
  clearbody shuffled.
  pose proof (Permutation_length Hperm) as Hlen.
  destruct (chunkLoop_fuel shuffled (groupSize render) fuel 0 [])
    as (gs & -> & Hcat & Hfull & Hsmall); [lia|lia|lia|].
  change (drop (Z.to_nat 0) shuffled) with shuffled in Hcat.
  eexists. split; [reflexivity|]. simpl.
  pose proof (chunks_count gs (groupSize render) ltac:(lia) Hfull Hsmall) as Hcount.
  rewrite Hcat in Hcount.
  assert (Z.of_nat (length gs)
          = ((Z.of_nat (length (participants render)) + groupSize render - 1)
             / groupSize render)%Z) as Hcount'.
  { rewrite Hcount. f_equal. lia. }
  split; [exact Hcount'|].
  intros Hbig.
  assert (Z.of_nat (length gs) = 1%Z) as Hone.
  { rewrite Hcount'. symmetry.
    apply (Z.div_unique_pos _ _ 1 (Z.of_nat (length (participants render)) - 1)); lia. }
  destruct gs as [|g [|g' gs]]; simpl in Hone; try lia.
  exists g. split; [done|]. simpl in Hcat. rewrite app_nil_r in Hcat. by rewrite Hcat.
Qed.

End GroupingExtras.

(** ** The group size *)

Section GroupSize.
Context {E : Engine}.
Variable random : nat → rnd.

(** X14. The group size is never zero: the input's handler puts 1 for an
    unreadable number and for 0 and keeps any other integer, negative ones
    included, and nothing else writes the cell. *)
Theorem groupSize_never_zero (evs : list Event) (w : World) :
  run random evs initialWorld = Some w → groupSize (appState w) ≠ 0%Z.
Proof.
  assert (∀ e render w1 w2, handle random e render w1 = Some w2 →
                     groupSize (appState w1) ≠ 0%Z → groupSize (appState w2) ≠ 0%Z)
    as Hhandle.
  { intros e render w1 w2 Hd Hnz.
    destruct e; simpl in Hd; try (injection Hd as <-); try done.
    - unfold uploadComplete. by destruct (uploads w1 !! k) as [[u|]|].
    - by destruct (listButtonsDisabled render).
    - by destruct (listButtonsDisabled render).
    - by case_decide.
    - destruct (drawDisabled render); [done|]. unfold startDraw.
      by destruct (length _ =? 0).
    - unfold timerCallback in Hd. destruct (timers w1 !! k) as [[t|]|];
        [|by injection Hd as <-..].
      destruct (steps <=? S (t_counter t)); [|by injection Hd as <-].
      destruct (t_available t !! _); [by injection Hd as <-|done].
    - simpl. destruct parsed as [z|]; [|done]. by destruct (Z.eqb_spec z 0).
    - destruct (listButtonsDisabled render); [by injection Hd as <-|].
      unfold handleGrouping in Hd.
      destruct (length (participants render) =? 0); [by injection Hd as <-|].
      destruct (chunkLoop _ _ _ _ _); [by injection Hd as <-|done]. }
  assert (∀ e w1 w2, dispatch random e w1 = Some w2 →
                     groupSize (appState w1) ≠ 0%Z → groupSize (appState w2) ≠ 0%Z) as Hstep.
  { intros e w1 w2 [->|(render & _ & Hd)]%dispatch_handle Hnz; [done|].
    by eapply Hhandle. }
  assert (∀ w0, groupSize (appState w0) ≠ 0%Z →
                run random evs w0 = Some w → groupSize (appState w) ≠ 0%Z) as Hrun.
  { induction evs as [|e evs IH]; intros w0 Hnz Hrun; simpl in Hrun.
    - by injection Hrun as <-.
    - destruct (dispatch random e w0) as [w1|] eqn:Hd; [|done].
      apply (IH w1); [by eapply Hstep|done]. }
  intros Hinit. by apply (Hrun initialWorld).
Qed.
End GroupSize.

(** ** The further properties at concrete inputs *)

Module MoreInstances.
Import Reference ReferenceFacts Samples.

(** Removing an id the list does not hold. *)
Lemma removeParticipant_absent_id :
  ([51]%N ∉ id <$> participants (appState (worldOf [pA; pB] 3)))
  ∧ removeParticipant [51]%N (appState (worldOf [pA; pB] 3)) = appState (worldOf [pA; pB] 3).
Proof.
  assert ([51]%N ∉ id <$> participants (appState (worldOf [pA; pB] 3))) as Habsent.
  { apply (bool_decide_unpack _). vm_compute. exact I. }
  split; [exact Habsent|].
  destruct (removeParticipant_exact [51]%N (appState (worldOf [pA; pB] 3)))
    as (_ & _ & _ & Hnoop & _).
  exact (Hnoop Habsent).
Defined.


(** Alice, Bob, Alice added to a list that holds Bob, repeats kept. *)
Lemma handleAddFromText_repeats_at_sample :
  name <$> participants (appState (handleAddFromText (E := engine) countingRandom
                                     (appState repeatsWorld) repeatsWorld))
  = [bob] ++ [alice; bob; alice].
Proof.
  exact (proj1 (handleAddFromText_keeps_repeats (E := engine) countingRandom
                  (appState repeatsWorld) repeatsWorld eq_refl)).
Defined.

(** A text of white space only. *)
Lemma handleAddFromText_blank_at_sample :
  blankText (inputText (appState blankWorld))
  ∧ handleAddFromText (E := engine) countingRandom (appState blankWorld) blankWorld
    = withApp (setInputText []) blankWorld.
Proof.
  assert (blankText (inputText (appState blankWorld))) as Hblank.
  { repeat constructor. }
  split; [exact Hblank|].
  exact (handleAddFromText_blank (E := engine) countingRandom (appState blankWorld)
           blankWorld Hblank).
Defined.

(** The sample text added to Bob with auto-deduplicate on, by the handler of
    the render that shows Bob. *)
Lemma names_distinct_at_sample :
  ∃ added,
    participants
      (appState (handleAddFromText (E := engine) countingRandom
                   (appState (withApp (setInputText sampleText) (worldOf [pB] 3)))
                   (withApp (setInputText sampleText) (worldOf [pB] 3))))
    = [pB] ++ added
    ∧ (∀ p, p ∈ added → name p ∉ name <$> [pB])
    ∧ NoDup (name <$> [pB] ++ added).
Proof.
  destruct (handleAddFromText_keeps_names_distinct (E := engine) countingRandom
              (appState (withApp (setInputText sampleText) (worldOf [pB] 3)))
              (withApp (setInputText sampleText) (worldOf [pB] 3)) eq_refl)
    as (added & Hps & Hseen & _ & _ & _ & _ & _ & Hkeep).
  exists added. split; [exact Hps|]. split; [exact Hseen|].
  assert (NoDup (name <$> [pB])) as Hold.
  { apply (bool_decide_unpack _). vm_compute. exact I. }
  pose proof (Hkeep eq_refl Hold) as Hnd. rewrite Hps in Hnd. exact Hnd.
Defined.

(** A file naming Alice and Carol completes after Alice was typed in: the
    list as it was when the file was chosen held Bob only, so Alice is added
    a second time. *)
Lemma uploadComplete_adds_alice_again :
  ∃ added,
    participants (appState (uploadComplete (E := engine) spreadRandom 0 [[alice; carol]]
                              uploadPendingWorld))
    = participants (appState uploadPendingWorld) ++ added
    ∧ alice ∈ name <$> participants (appState uploadPendingWorld)
    ∧ alice ∈ name <$> added.
Proof.
  destruct (uploadComplete_dedupes_against_snapshot (E := engine) spreadRandom 0
              [[alice; carol]] (mkUpload [pB] true) uploadPendingWorld eq_refl eq_refl)
    as (added & Hps & _ & _ & _ & Hall & _).
  exists added. split; [exact Hps|]. split.
  - apply (bool_decide_unpack _). vm_compute. exact I.
  - apply Hall; apply (bool_decide_unpack _); vm_compute; exact I.
Defined.

(** Five ticks into a draw among two. *)
Lemma reveal_at_five_ticks :
  ∃ p w1,
    run (E := engine) countingRandom (replicate 5 (TimerFires 0))
        (startDraw (appState (worldOf [pA; pB] 3)) (worldOf [pA; pB] 3)) = Some w1
    ∧ p ∈ [pA; pB]
    ∧ currentWinner (appState w1) = Some p
    ∧ isDrawing (appState w1) = true
    ∧ drawHistory (appState w1) = [].
Proof.
  destruct (reveal_shows_eligible (E := engine) countingRandom
              (appState (worldOf [pA; pB] 3)) (worldOf [pA; pB] 3) 5
              engine_random_index_in_range ltac:(discriminate)
              ltac:(rewrite steps_eq; lia))
    as (p & w1 & Hrun & Hin & Hshow & Hflag & Hhist & _).
  exists p, w1. split; [exact Hrun|]. split; [exact Hin|]. split; [exact Hshow|].
  split; [exact Hflag|exact Hhist].
Defined.

(** A draw among two, from the first call of the random source. *)
Lemma commit_at_call_forty :
  ∃ winner w',
    run (E := engine) countingRandom (replicate steps (TimerFires 0))
        (startDraw (appState (worldOf [pA; pB] 3)) (worldOf [pA; pB] 3)) = Some w'
    ∧ [pA; pB] !! ref_floor_times (countingRandom 40) 2 = Some winner
    ∧ drawHistory (appState w') = [winner]
    ∧ cursor w' = 41.
Proof.
  destruct (commit_is_last_call (E := engine) countingRandom
              (appState (worldOf [pA; pB] 3)) (worldOf [pA; pB] 3)
              engine_random_index_in_range ltac:(discriminate))
    as (winner & w' & Hrun & Hlook & Hhist & _ & Hpos).
  exists winner, w'. split; [exact Hrun|]. split; [exact Hlook|].
  split; [exact Hhist|exact Hpos].
Defined.

(** Both participants have won already. *)
Lemma draw_at_exhaustedWorld :
  fst (shown exhaustedWorld) = tab_draw
  ∧ dispatch (E := engine) countingRandom ClickDraw exhaustedWorld = Some exhaustedWorld.
Proof.
  split; [reflexivity|].
  refine (proj1 (proj2 (draw_on_exhausted_pool (E := engine) countingRandom
                          (appState exhaustedWorld) exhaustedWorld eq_refl _)) eq_refl).
  intros p Hp. apply (bool_decide_unpack _).
  apply elem_of_cons in Hp as [->|Hp]; [vm_compute; exact I|].
  apply elem_of_cons in Hp as [->|Hp]; [vm_compute; exact I|].
  by apply not_elem_of_nil in Hp.
Defined.

(** Three draws among three participants. *)
Lemma winners_of_three_draws :
  ∃ w, run (E := engine) spreadRandom threeDraws initialWorld = Some w
    ∧ length (drawHistory (appState w)) = 3
    ∧ activeTimers w = 0
    ∧ NoDup (id <$> drawHistory (appState w)).
Proof.
  eexists. split; [vm_compute; reflexivity|]. split; [reflexivity|].
  destruct (winners_never_repeat (E := engine) spreadRandom threeDraws _
              ltac:(vm_compute; reflexivity) ltac:(vm_compute; reflexivity))
    as [Hone Hnd].
  split; [exact Hone|]. apply Hnd.
  apply (bool_decide_unpack _). vm_compute. exact I.
Defined.

(** The rows of two groups whose members have the same name: the label
    tells them apart. *)
Lemma csvData_of_two_groups :
  csvData [[pA]; [pA']] !! 0 = Some (mkRow (groupLabel 0) alice)
  ∧ csvData [[pA]; [pA']] !! 1 = Some (mkRow (groupLabel 1) alice)
  ∧ length (csvData [[pA]; [pA']]) = 2
  ∧ groupLabel 1 ≠ groupLabel 0.
Proof.
  destruct (csvData_rows [[pA]; [pA']]) as (Hlen & Hat & _ & _ & _ & Hinj).
  split_and!.
  - exact (Hat 0 [pA] 0 pA eq_refl eq_refl).
  - exact (Hat 1 [pA'] 0 pA' eq_refl eq_refl).
  - exact Hlen.
  - intros Heq. apply Hinj in Heq. discriminate.
Defined.

(** Five participants in groups of two, and in one group of seven. *)
Lemma handleGrouping_count_at_five :
  (∃ w', handleGrouping (E := engine) countingRandom 6
           (appState (worldOf [pA; pB; pC; pD; pE] 2)) (worldOf [pA; pB; pC; pD; pE] 2)
         = Some w'
      ∧ Z.of_nat (length (groups (appState w'))) = 3%Z)
  ∧ (∃ w' g, handleGrouping (E := engine) countingRandom 6
               (appState (worldOf [pA; pB; pC; pD; pE] 7)) (worldOf [pA; pB; pC; pD; pE] 7)
             = Some w'
      ∧ groups (appState w') = [g]).
Proof.
  split.
  - destruct (handleGrouping_count (E := engine) countingRandom engine_sort_permutes
                (appState (worldOf [pA; pB; pC; pD; pE] 2))
                (worldOf [pA; pB; pC; pD; pE] 2) 6 ltac:(discriminate) ltac:(discriminate)
                (le_n 6)) as (w' & Hrun & Hcount & _).
    exists w'. split; [exact Hrun|exact Hcount].
  - destruct (handleGrouping_count (E := engine) countingRandom engine_sort_permutes
                (appState (worldOf [pA; pB; pC; pD; pE] 7))
                (worldOf [pA; pB; pC; pD; pE] 7) 6 ltac:(discriminate) ltac:(discriminate)
                (le_n 6)) as (w' & Hrun & _ & Hone).
    destruct (Hone ltac:(discriminate)) as (g & Hg & _).
    exists w', g. split; [exact Hrun|exact Hg].
Defined.


(** The group size after typing nothing readable, 0 and -5. *)
Lemma groupSize_after_inputs :
  ∃ w, run (E := engine) countingRandom groupSizeInputs initialWorld = Some w
    ∧ groupSize (appState w) = (-5)%Z
    ∧ groupSize (appState w) ≠ 0%Z.
Proof.
  eexists. split; [vm_compute; reflexivity|]. split; [reflexivity|].
  apply (groupSize_never_zero (E := engine) countingRandom groupSizeInputs).
  vm_compute. reflexivity.
Defined.

End MoreInstances.
